(** * QuickView server: file tree snapshots, change events, file reads and
    rate-limited script execution.

    A shallow embedding of [QuickViewServer] (the Express / socket.io server
    of the quickview tool) and the properties its specification states about
    it.  Each route handler is a function of the request, the clock and the
    part of the host it touches; the host's answers (directory listings, stat
    results, which file operations fail, which event a child process emits)
    are inputs of the model. *)

From Stdlib Require Import Ascii.
From stdpp Require Import gmap strings list sorting pretty.

Local Open Scope Z_scope.

(** ** JavaScript strings

    A JavaScript string is a sequence of UTF-16 code units.  The model covers
    the code units below 256, one [ascii] each, which is enough to tell the
    [length] of a string from the number of bytes of its UTF-8 encoding. *)
Module Js.

Abbreviation chars := String.list_ascii_of_string.
Abbreviation str := String.string_of_list_ascii.

(** [s.startsWith(p)] and [s.endsWith(p)]. *)
Definition startsWith (s p : string) : bool := String.prefix p s.
Definition endsWith (s p : string) : bool :=
  String.prefix (String.rev p) (String.rev s).

(** [s.length], in code units. *)
Definition length (s : string) : Z := Z.of_nat (String.length s).

(** The bytes [s] takes once encoded as UTF-8 (what [fs.writeFileSync]
    puts on disk): one byte below U+0080, two from U+0080 to U+00FF. *)
Definition utf8_width (c : ascii) : Z :=
  if (N_of_ascii c <? 128)%N then 1 else 2.
Fixpoint byteLength (s : string) : Z :=
  match s with
  | "" => 0
  | String c s' => utf8_width c + byteLength s'
  end.

(** [s.toLowerCase()] on the Latin-1 range. *)
Definition lower (c : ascii) : ascii :=
  let n := N_of_ascii c in
  if ((65 <=? n) && (n <=? 90)
      || (192 <=? n) && (n <=? 222) && negb (n =? 215))%N
  then ascii_of_N (n + 32) else c.
Fixpoint toLowerCase (s : string) : string :=
  match s with
  | "" => ""
  | String c s' => String (lower c) (toLowerCase s')
  end.

(** [n] copies of [c], as [c.repeat(n)]. *)
Fixpoint repeat (c : ascii) (n : nat) : string :=
  match n with
  | O => ""
  | S n' => String c (repeat c n')
  end.

End Js.

(** ** Node's [path] module, POSIX flavour

  The functions of [path] the server calls, following the algorithms of
  Node's [lib/path.js] for the separator [/]. *)
Module Path.
Import Js.

Definition slash : ascii := "/"%char.
Definition dot : ascii := "."%char.
Definition is_slash (c : ascii) : bool := bool_decide (c = slash).

Fixpoint take_while (p : ascii → bool) (l : list ascii) : list ascii :=
  match l with
  | c :: l' => if p c then c :: take_while p l' else []
  | [] => []
  end.
Fixpoint drop_while (p : ascii → bool) (l : list ascii) : list ascii :=
  match l with
  | c :: l' => if p c then drop_while p l' else l
  | [] => []
  end.

Definition isAbsolute (p : string) : bool := startsWith p "/".

(** [path.basename(p)]: the scan runs from the end of [p], skips the
    trailing separators and stops at the separator before the last
    component. *)
Definition basename (p : string) : string :=
  str (rev (take_while (λ c, negb (is_slash c))
              (drop_while is_slash (rev (chars p))))).

(** [path.dirname(p)]: the same scan, which never looks at the first
    character; what is left of the separator it stops at is the result. *)
Definition dirname (p : string) : string :=
  match chars p with
  | [] => "."
  | c0 :: _ =>
      let hasRoot := is_slash c0 in
      let r := drop_while (λ c, negb (is_slash c))
                 (drop_while is_slash (rev (chars p))) in
      match r with
      | [] | [_] => if hasRoot then "/" else "."
      | _ :: before =>
          if hasRoot && bool_decide (List.length before = 1%nat) then "//"
          else str (rev before)
      end
  end.

(** [path.extname(p)]: from the last dot of the last component, unless
    there is none, it is the component's first character, or the
    component is [..]. *)
Fixpoint last_dot (l : list ascii) : option (list ascii) :=
  match l with
  | [] => None
  | c :: l' =>
      match last_dot l' with
      | Some e => Some e
      | None => if bool_decide (c = dot) then Some l else None
      end
  end.
Definition extname (p : string) : string :=
  let b := chars (basename p) in
  match b with
  | [] => ""
  | _ :: b' =>
      match last_dot b' with
      | None => ""
      | Some e => if bool_decide (b = [dot; dot]) then "" else str e
      end
  end.

(** [p.split('/')]. *)
Fixpoint split (l : list ascii) : list (list ascii) :=
  match l with
  | [] => [[]]
  | c :: l' =>
      if is_slash c then [] :: split l'
      else match split l' with
           | seg :: segs => (c :: seg) :: segs
           | [] => [[c]]
           end
  end.

(** [normalizeString]: empty and [.] segments vanish, [..] removes the
    segment before it; above the start of a relative path [..] is kept,
    above the root it is dropped.  [acc] is the result so far, last
    segment first. *)
Fixpoint normalize_segments (allowAboveRoot : bool)
    (acc : list (list ascii)) (segs : list (list ascii)) : list (list ascii) :=
  match segs with
  | [] => rev acc
  | seg :: segs' =>
      if bool_decide (seg = []) || bool_decide (seg = [dot]) then
        normalize_segments allowAboveRoot acc segs'
      else if bool_decide (seg = [dot; dot]) then
        match acc with
        | top :: acc' =>
            if bool_decide (top = [dot; dot])
            then normalize_segments allowAboveRoot (seg :: acc) segs'
            else normalize_segments allowAboveRoot acc' segs'
        | [] =>
            if allowAboveRoot
            then normalize_segments allowAboveRoot [seg] segs'
            else normalize_segments allowAboveRoot [] segs'
        end
      else normalize_segments allowAboveRoot (seg :: acc) segs'
  end.

Fixpoint join_segments (segs : list (list ascii)) : list ascii :=
  match segs with
  | [] => []
  | [seg] => seg
  | seg :: segs' => seg ++ slash :: join_segments segs'
  end.

(** [path.normalize(p)]. *)
Definition normalize (p : string) : string :=
  match chars p with
  | [] => "."
  | c0 :: _ =>
      let isAbs := is_slash c0 in
      let trailing := endsWith p "/" in
      let body := join_segments
                    (normalize_segments (negb isAbs) [] (split (chars p))) in
      match body with
      | [] => if isAbs then "/" else if trailing then "./" else "."
      | _ =>
          let body := if trailing then body ++ [slash] else body in
          str (if isAbs then slash :: body else body)
      end
  end.

(** [path.join(...parts)]: the non-empty parts, separated by [/], then
    normalized. *)
Definition join (parts : list string) : string :=
  match List.filter (λ s, negb (bool_decide (s = ""))) parts with
  | [] => "."
  | ps => normalize (String.concat "/" ps)
  end.

(** [path.resolve(p)] for a process whose working directory is [cwd]
    (itself absolute): the normalized absolute path, with no trailing
    separator. *)
Definition resolve_segments (cwd p : string) : list (list ascii) :=
  let full := if isAbsolute p then chars p
              else chars cwd ++ slash :: chars p in
  normalize_segments false [] (split full).

Fixpoint strip_common (a b : list (list ascii))
    : list (list ascii) * list (list ascii) :=
  match a, b with
  | x :: a', y :: b' =>
      if bool_decide (x = y) then strip_common a' b' else (a, b)
  | _, _ => (a, b)
  end.

(** [path.relative(from, to)]: one [..] for each segment of [from] below
    the common ancestor, then what is left of [to]. *)
Definition relative (cwd from to : string) : string :=
  let '(up, down) :=
    strip_common (resolve_segments cwd from) (resolve_segments cwd to) in
  str (join_segments (List.map (λ _, [dot; dot]) up ++ down)).

End Path.

(** ** The tree snapshot builder: [getFileTree]

  What the host answers when the builder walks a directory is the input:
  [statSync] on an entry finds a regular file of some size, finds a
  directory, or throws; [readdirSync] on a directory returns its entries in
  the host's order, or throws. *)
Module Snapshot.

#[local] Set Warnings "-register-all".

Inductive fsnode :=
| File (size : Z)
| Dir (listable : bool) (entries : list (string * fsnode))
| NoStat.

(** The objects pushed on [items]: [{name, type: 'directory', path,
    children}] and [{name, type: 'file', path, extension, size}]. *)
Inductive item :=
| Directory (name path : string) (children : list item)
| FileEntry (name path extension : string) (size : Z).

Definition name (it : item) : string :=
  match it with Directory n _ _ | FileEntry n _ _ _ => n end.
Definition type (it : item) : string :=
  match it with
  | Directory _ _ _ => "directory"
  | FileEntry _ _ _ _ => "file"
  end.
Definition path (it : item) : string :=
  match it with Directory _ p _ | FileEntry _ p _ _ => p end.
Definition children (it : item) : list item :=
  match it with Directory _ _ ch => ch | FileEntry _ _ _ _ => [] end.

(** The two [continue] tests at the head of the loop. *)
Definition hidden (file : string) : bool :=
  Js.startsWith file "." && negb (Js.endsWith file ".html").
Definition skipped (file : string) : bool :=
  hidden file || bool_decide (file = "node_modules").

Definition statable (n : fsnode) : bool :=
  match n with NoStat => false | _ => true end.

Section Builder.

(** [a.localeCompare(b)] is the collation of the host's locale: negative,
    zero or positive.  The builder is read for any such function. *)
Variable localeCompare : string → string → Z.

(** The comparator handed to [items.sort]. *)
Definition compareItems (a b : item) : Z :=
  if bool_decide (type a = type b) then localeCompare (name a) (name b)
  else if bool_decide (type a = "directory") then -1 else 1.

(** [a] may stay before [b]. *)
Definition item_le (a b : item) : Prop := compareItems a b ≤ 0.

#[export] Instance item_le_dec : RelDecision item_le.
Proof. intros a b. unfold item_le. apply _. Defined.

(** [items.sort(compare)], as a merge sort by the comparator. *)
Definition sort (items : list item) : list item := merge_sort item_le items.

(** [getFileTree(dir, prefix)].  The [try] spans the listing and the whole
    loop: when [readdirSync] throws nothing is pushed, and when
    [statSync] throws on an entry the loop is left with the items pushed
    so far.  The [sort] comes after the [catch]. *)
Fixpoint getFileTree (dir : fsnode) (prefix : string) : list item :=
  sort
    match dir with
    | Dir true files =>
        (fix loop (files : list (string * fsnode)) : list item :=
           match files with
           | [] => []
           | (file, stat) :: files' =>
               if hidden file then loop files'
               else if bool_decide (file = "node_modules") then loop files'
               else
                 let relativePath := Path.join [prefix; file] in
                 match stat with
                 | NoStat => []
                 | Dir _ _ =>
                     Directory file relativePath
                       (getFileTree stat relativePath) :: loop files'
                 | File size =>
                     FileEntry file relativePath
                       (Js.toLowerCase (Path.extname file)) size
                       :: loop files'
                 end
           end) files
    | _ => []
    end.

(** The loop of [getFileTree] on its own, for the proofs. *)
Fixpoint loop (prefix : string) (files : list (string * fsnode)) : list item :=
  match files with
  | [] => []
  | (file, stat) :: files' =>
      if skipped file then loop prefix files'
      else
        let relativePath := Path.join [prefix; file] in
        match stat with
        | NoStat => []
        | Dir _ _ =>
            Directory file relativePath (getFileTree stat relativePath)
              :: loop prefix files'
        | File size =>
            FileEntry file relativePath
              (Js.toLowerCase (Path.extname file)) size
              :: loop prefix files'
        end
  end.

End Builder.

(** Whether the loop gets to the end of a listing: no entry it keeps makes
  [statSync] throw. *)
Definition reaches_end (files : list (string * fsnode)) : bool :=
forallb (λ e, skipped e.1 || statable e.2) files.

(** Every list of siblings of a snapshot: the top level and, below each
    directory, its children's. *)
Fixpoint item_levels (it : item) : list (list item) :=
  match it with
  | Directory _ _ ch => ch :: flat_map item_levels ch
  | FileEntry _ _ _ _ => []
  end.
Definition levels (items : list item) : list (list item) :=
  items :: flat_map item_levels items.

(** A collation for the examples: the order of the code units. *)
Definition codeUnitCompare (a b : string) : Z :=
  match String.compare a b with Lt => -1 | Eq => 0 | Gt => 1 end.

End Snapshot.

(** ** The change watcher: [handleFileChange] *)
Module Watch.

(** The three events the watcher subscribes to. *)
Inductive fsevent := add | change | unlink.

#[export] Instance fsevent_eq_dec : EqDecision fsevent.
Proof. solve_decision. Defined.

(** The object emitted as [fileChange]. *)
Record payload := {
  event : fsevent;
  path : string;
  relativePath : string;
  content : option string
}.

(** What [this.io.emit] sends to every connected client. *)
Inductive emitted :=
| FileChange (p : payload)
| FileTree (tree : list Snapshot.item).

(** The host at the time of the event: the working directory of the
    process, the text of the files that can be read, and the watched
    directory as the builder will find it. *)
Record host := {
  cwd : string;
  texts : gmap string string;
  root : Snapshot.fsnode
}.

(** [readFileIfExists]: the text, or [null] when the read throws. *)
Definition readFileIfExists (h : host) (filePath : string) : option string :=
  texts h !! filePath.

Definition handleFileChange (localeCompare : string → string → Z)
    (watchDir : string) (h : host) (ev : fsevent) (filePath : string)
    : list emitted :=
  [ FileChange {|
      event := ev;
      path := filePath;
      relativePath := Path.relative (cwd h) watchDir filePath;
      content := if bool_decide (ev ≠ unlink) then readFileIfExists h filePath
                 else None |};
    FileTree (Snapshot.getFileTree localeCompare (root h) "") ].

End Watch.

(** ** The file route: [GET /api/file/*] *)
Module ReadFile.

(** What the handler sends: an error with its status, or the file. *)
Inductive reply :=
| Failure (status : Z) (error : string)
| Content (content extension filename path : string).

(** The calls to [fs] the handler makes, in order. *)
Inductive fscall := ExistsSync (p : string) | ReadFileSync (p : string).

Definition allowedExtensions : list string :=
  [".html"; ".jsx"; ".js"; ".py"; ".css"; ".json"; ".md"; ".svg"; ".txt";
   ".xml"; ".yaml"; ".yml"].

(** The test guarding the first 403. *)
Definition hidden (filename : string) : bool :=
  Js.startsWith filename "." && negb (Js.endsWith filename ".html").

Definition hidden_denied : reply :=
  Failure 403 "Access to hidden files denied".

(** [files] maps the paths that exist to their text, or to [None] when
    reading them throws. *)
Definition getFile (watchDir : string) (files : gmap string (option string))
    (requestedPath : string) : list fscall * reply :=
  let filename := Path.basename requestedPath in
  if hidden filename then ([], hidden_denied)
  else
    let ext := Js.toLowerCase (Path.extname filename) in
    if negb (bool_decide (ext = ""))
       && negb (bool_decide (ext ∈ allowedExtensions))
    then ([], Failure 403 "File type not supported for security reasons")
    else
      let filePath := Path.join [watchDir; requestedPath] in
      match files !! filePath with
      | None => ([ExistsSync filePath], Failure 404 "File not found")
      | Some None =>
          ([ExistsSync filePath; ReadFileSync filePath],
           Failure 500 "Unable to read file")
      | Some (Some content) =>
          ([ExistsSync filePath; ReadFileSync filePath],
           Content content ext filename requestedPath)
      end.

End ReadFile.

(** ** The execution route: [POST /api/execute/python] *)
Module Exec.

(** A field of the JSON body as JavaScript sees it.  An object or an array
    is kept only with the text [String(v)] gives it. *)
Inductive value :=
| Undefined
| Null
| Bool (b : bool)
| Number (n : Z)
| Str (s : string)
| Object (shown : string).

(** [!!v]. *)
Definition truthy (v : value) : bool :=
  match v with
  | Undefined | Null => false
  | Bool b => b
  | Number n => negb (n =? 0)
  | Str s => negb (bool_decide (s = ""))
  | Object _ => true
  end.

(** [typeof v === 'string']. *)
Definition is_string (v : value) : bool :=
  match v with Str _ => true | _ => false end.

(** [v] spliced into a template literal. *)
Definition show (v : value) : string :=
  match v with
  | Undefined => "undefined"
  | Null => "null"
  | Bool true => "true"
  | Bool false => "false"
  | Number n => pretty n
  | Str s => s
  | Object shown => shown
  end.

(** [a || b] on strings, the empty string standing for an absent one. *)
Definition or_else (a b : string) : string :=
  if bool_decide (a = "") then b else a.

Record request := {
  ip : string;
  remoteAddress : string;
  code : value;
  filename : value
}.

(** The JSON sent back, with the status it is sent under; [output] and
    [exitCode] are absent from some replies, and [exitCode] can be [null]. *)
Record response := {
  status : Z;
  success : bool;
  error : string;
  output : option string;
  exitCode : option (option Z)
}.

(** The state the handler reads and writes: the table of recent executions
    per client, the paths present on disk, and the paths on which the host
    refuses to create or remove anything. *)
Record world := {
  pythonExecutionCount : gmap string (list Z);
  disk : gset string;
  refused : gset string
}.

(** What the handler does to the host, in order. *)
Inductive action :=
| MkdirSync (p : string)
| WriteFileSync (p : string) (data : string)
| UnlinkSync (p : string)
| Spawn (command : string) (args : list string)
| Warn (message : string) (p : string).

(** A request whose child process is running: the variables its event
    handlers close over. *)
Record child := {
  tempFile : string;
  captured_output : string;
  captured_error : string
}.

(** How the synchronous part of the handler ends: a reply was sent, the
    child was spawned and the reply is left to its events, or an exception
    left the handler. *)
Inductive outcome :=
| Replied (r : response)
| Started (c : child)
| Thrown.

Definition with_count (w : world) (m : gmap string (list Z)) : world :=
  {| pythonExecutionCount := m; disk := disk w; refused := refused w |}.
Definition with_disk (w : world) (d : gset string) : world :=
  {| pythonExecutionCount := pythonExecutionCount w; disk := d;
     refused := refused w |}.

(** [fs.mkdirSync], [fs.writeFileSync] and [fs.unlinkSync]: [None] when
    the call throws. *)
Definition mkdirSync (p : string) (w : world) : option world :=
  if bool_decide (p ∈ refused w) then None
  else Some (with_disk w ({[p]} ∪ disk w)).
Definition writeFileSync (p : string) (w : world) : option world :=
  if bool_decide (p ∈ refused w) then None
  else Some (with_disk w ({[p]} ∪ disk w)).
Definition unlinkSync (p : string) (w : world) : option world :=
  if bool_decide (p ∈ disk w) && negb (bool_decide (p ∈ refused w))
  then Some (with_disk w (disk w ∖ {[p]}))
  else None.

Definition too_many : response :=
  {| status := 429; success := false;
     error :=
       "Too many Python executions. Please wait a minute before trying again.";
     output := None; exitCode := None |}.
Definition invalid_code : response :=
  {| status := 400; success := false;
     error := "Invalid Python code provided";
     output := None; exitCode := None |}.
Definition too_large : response :=
  {| status := 400; success := false;
     error := "Python code too large (max 50KB)";
     output := None; exitCode := None |}.
Definition no_temp_file : response :=
  {| status := 500; success := false;
     error := "Failed to create temp file";
     output := None; exitCode := None |}.
Definition timeout_message : string :=
  "Python script execution timed out (30 second limit)".

(** [req.ip || req.connection.remoteAddress || 'unknown']. *)
Definition clientIP (req : request) : string :=
  or_else (ip req) (or_else (remoteAddress req) "unknown").

#[export] Instance response_eq_dec : EqDecision response.
Proof. solve_decision. Defined.
#[export] Instance child_eq_dec : EqDecision child.
Proof. solve_decision. Defined.
#[export] Instance outcome_eq_dec : EqDecision outcome.
Proof. solve_decision. Defined.

(** The entries of a client's list kept by the rate check at time [now]. *)
Definition recent (now : Z) (executions : list Z) : list Z :=
  filter (λ time, now - time < 60000) executions.

(** The handler up to [spawn].  [dirname] is [__dirname]; [now] and [stamp]
    are the two readings of [Date.now()], for the rate check and for the
    name of the scratch file. *)
Definition executePython (dirname : string) (req : request) (now stamp : Z)
    (w : world) : world * list action * outcome :=
  let clientIP := clientIP req in
  let executions := default [] (pythonExecutionCount w !! clientIP) in
  let recentExecutions := recent now executions in
  if bool_decide (5 ≤ length recentExecutions)%nat then
    (w, [], Replied too_many)
  else
    let recentExecutions := recentExecutions ++ [now] in
    let w := with_count w
               (<[clientIP := recentExecutions]> (pythonExecutionCount w)) in
    if negb (truthy (code req)) || negb (is_string (code req)) then
      (w, [], Replied invalid_code)
    else
      let text := show (code req) in
      if 50000 <? Js.length text then (w, [], Replied too_large)
      else
        let label := if truthy (filename req) then show (filename req)
                     else "temp" in
        let tempFile :=
          Path.join
            [dirname; "temp"; label +:+ "_" +:+ pretty stamp +:+ ".py"] in
        let tempDir := Path.dirname tempFile in
        let made :=
          if bool_decide (tempDir ∈ disk w) then Some (w, [])
          else (λ w', (w', [MkdirSync tempDir])) <$> mkdirSync tempDir w in
        match made with
        | None => (w, [MkdirSync tempDir], Thrown)
        | Some (w, log) =>
            match writeFileSync tempFile w with
            | None =>
                (w, log ++ [WriteFileSync tempFile text], Replied no_temp_file)
            | Some w =>
                (w,
                 log ++ [WriteFileSync tempFile text;
                         Spawn "python3" [tempFile]],
                 Started {| tempFile := tempFile;
                            captured_output := "";
                            captured_error := "" |})
            end
        end.

(** The events of the child the handler listens to: data on its two
    streams, [close] with the exit code ([null] when a signal ended it), and
    [error] with the code and the message of the error. *)
Inductive event :=
| StdoutData (data : string)
| StderrData (data : string)
| Close (code : option Z)
| Error (code message : string).

(** The [try { fs.unlinkSync(tempFile) } catch { console.warn(...) }] of
    the two final handlers. *)
Definition cleanup (message : string) (c : child) (w : world)
    : world * list action :=
  match unlinkSync (tempFile c) w with
  | Some w' => (w', [UnlinkSync (tempFile c)])
  | None => (w, [UnlinkSync (tempFile c); Warn message (tempFile c)])
  end.

(** One event of the child: the new state, what was done, what the closure
    now holds, and the reply if the event sends one. *)
Definition on_event (ev : event) (c : child) (w : world)
    : world * list action * child * option response :=
  match ev with
  | StdoutData data =>
      (w, [],
       {| tempFile := tempFile c;
          captured_output := captured_output c +:+ data;
          captured_error := captured_error c |}, None)
  | StderrData data =>
      (w, [],
       {| tempFile := tempFile c;
          captured_output := captured_output c;
          captured_error := captured_error c +:+ data |}, None)
  | Close code =>
      let '(w, log) := cleanup "Failed to clean up temp file:" c w in
      (w, log, c,
       Some {| status := 200;
               success := bool_decide (code = Some 0);
               output := Some (captured_output c);
               error := captured_error c;
               exitCode := Some code |})
  | Error code message =>
      let '(w, log) :=
        cleanup "Failed to clean up temp file after error:" c w in
      (w, log, c,
       Some (if bool_decide (code = "ETIMEDOUT") then
               {| status := 408;
                  success := false;
                  error := timeout_message;
                  output := Some (captured_output c);
                  exitCode := Some (Some (-1)) |}
             else
               {| status := 500;
                  success := false;
                  error := "Failed to execute Python script: " +:+ message;
                  output := Some (captured_output c);
                  exitCode := Some (Some (-1)) |}))
  end.

(** The kinds of failure of the specification, and the one each reply
    stands for: 429 is the rate limit, 400 a refused body, 408 the timeout,
    500 a failure to stage or to launch, and a reply of [close] with
    [success: false] a script that did not exit with 0. *)
Inductive failure :=
| RateLimited | InvalidInput | TooLarge | StagingError
| SpawnError | RuntimeError | Timeout.

Definition failureKind (r : response) : option failure :=
  if status r =? 429 then Some RateLimited
  else if status r =? 400 then
    if bool_decide (error r = error too_large) then Some TooLarge
    else Some InvalidInput
  else if status r =? 408 then Some Timeout
  else if status r =? 500 then
    if bool_decide (error r = error no_temp_file) then Some StagingError
    else Some SpawnError
  else if success r then None
  else Some RuntimeError.

(** A reply to the caller, if the handler sent one before [spawn]. *)
Definition rejection (o : outcome) : option response :=
  match o with Replied r => Some r | _ => None end.

(** A run of requests [(req, now, stamp)] through the handler, oldest
    first: the state it leaves and how each request ended. *)
Fixpoint serve (dirname : string) (reqs : list (request * Z * Z)) (w : world)
    : world * list outcome :=
  match reqs with
  | [] => (w, [])
  | (req, now, stamp) :: reqs' =>
      let '(w', _, o) := executePython dirname req now stamp w in
      let '(w'', os) := serve dirname reqs' w' in
      (w'', o :: os)
  end.

(** The requests of a run that went past the rate check, as the client and
    the time of each. *)
Fixpoint counted (dirname : string) (reqs : list (request * Z * Z))
    (w : world) : list (string * Z) :=
  match reqs with
  | [] => []
  | (req, now, stamp) :: reqs' =>
      let '(w', _, o) := executePython dirname req now stamp w in
      (if bool_decide (o = Replied too_many) then [] else [(clientIP req, now)])
      ++ counted dirname reqs' w'
  end.

(** The list the table holds for a client. *)
Definition window (w : world) (client : string) : list Z :=
  default [] (pythonExecutionCount w !! client).

(** The state once a request is past the rate check. *)
Definition recorded (req : request) (now : Z) (w : world) : world :=
  with_count w
    (<[clientIP req := recent now (window w (clientIP req)) ++ [now]]>
       (pythonExecutionCount w)).

(** A body the validation lets through. *)
Definition valid (req : request) : bool :=
  truthy (code req) && is_string (code req)
  && negb (50000 <? Js.length (show (code req))).

(** The failure a request was refused with before anything was spawned. *)
Definition refused_as (o : outcome) : option failure :=
  rejection o ≫= failureKind.

(** The events that end a child. *)
Definition final (ev : event) : bool :=
  match ev with Close _ | Error _ _ => true | _ => false end.

Definition fresh : world :=
  {| pythonExecutionCount := ∅; disk := ∅; refused := ∅ |}.

End Exec.

(** ** Runs of the execution route and of a child *)
Module Runs.
Import Exec.

(** The times in a list of counted requests that are those of one client. *)
Definition times_of (client : string) (l : list (string * Z)) : list Z :=
  (filter (λ x : string * Z, x.1 = client) l).*2.

(** No time of a history has more than 5 times in the 60 seconds that end
    with it, itself included. *)
Definition within_limit (h : list Z) : Prop :=
  ∀ h1 T h2,
    h = h1 ++ T :: h2 →
    (length (filter (λ t, (T - t < 60000)%Z) (h1 ++ [T])) ≤ 5)%nat.

(** The clock readings of a run, in the order of the requests. *)
Definition clock (reqs : list (request * Z * Z)) : list Z :=
  (λ x : request * Z * Z, x.1.2) <$> reqs.

(** The handlers of the child run once for each event, in the order the
    runtime emits them; the caller gets the first reply that is sent. *)
Fixpoint deliver (evs : list event) (c : child) (w : world)
    : world * list action * child * option response :=
  match evs with
  | [] => (w, [], c, None)
  | ev :: evs' =>
      let '(w1, log1, c1, reply) := on_event ev c w in
      match reply with
      | Some r => (w1, log1, c1, Some r)
      | None =>
          let '(w2, log2, c2, reply2) := deliver evs' c1 w1 in
          (w2, log1 ++ log2, c2, reply2)
      end
  end.

(** What a stream of events carries on each of the two pipes. *)
Fixpoint stdout_of (evs : list event) : string :=
  match evs with
  | [] => ""
  | StdoutData data :: evs' => data +:+ stdout_of evs'
  | _ :: evs' => stdout_of evs'
  end.
Fixpoint stderr_of (evs : list event) : string :=
  match evs with
  | [] => ""
  | StderrData data :: evs' => data +:+ stderr_of evs'
  | _ :: evs' => stderr_of evs'
  end.

(** The scratch file of a request, as the handler names it. *)
Definition scratch (dirname : string) (req : request) (stamp : Z) : string :=
  Path.join
    [dirname; "temp";
     (if truthy (filename req) then show (filename req) else "temp")
       +:+ "_" +:+ pretty stamp +:+ ".py"].

End Runs.

(** ** Names as the host lists them *)
Module Names.
Import Js Path Snapshot.

(** A path segment that is a name: not empty, without separator, and
    neither [.] nor [..]; [readdirSync] returns only such names. *)
Definition proper (seg : list ascii) : bool :=
  negb (bool_decide (seg = []))
  && forallb (λ c, negb (is_slash c)) seg
  && negb (bool_decide (seg = [dot]))
  && negb (bool_decide (seg = [dot; dot])).

Definition proper_name (file : string) : bool := proper (chars file).

(** Every name in what the host holds is proper. *)
Fixpoint well_named (n : fsnode) : bool :=
  match n with
  | Dir _ entries =>
      (fix all (es : list (string * fsnode)) : bool :=
         match es with
         | [] => true
         | (file, stat) :: es' =>
             proper_name file && well_named stat && all es'
         end) entries
  | _ => true
  end.

(** The path of [name] below [parent], the empty string being the root of
    the snapshot. *)
Definition below (parent name : string) : string :=
  if bool_decide (parent = "") then name else parent +:+ "/" +:+ name.

(** Every item has the path of its name below [parent], and the children
    of a directory are so below the path of the directory. *)
Fixpoint chained (parent : string) (it : item) : Prop :=
  path it = below parent (name it)
  ∧ match it with
    | Directory _ p ch =>
        (fix all (l : list item) : Prop :=
           match l with
           | [] => True
           | x :: l' => chained p x ∧ all l'
           end) ch
    | FileEntry _ _ _ _ => True
    end.

(** The text of a path made of segments. *)
Definition path_of (segs : list (list ascii)) : string :=
  str (join_segments segs).

End Names.

(** ** The format route: [POST /api/format]

    The route is read for any four formatters: three functions of the text,
    and [formatJSON], which throws [Invalid JSON content] on a text it cannot
    parse. *)
Module Format.
Import Exec.

(** What the handler sends: [{success: true, message}] or, under a status,
    [{success: false, error}]. *)
Inductive reply :=
| Formatted (message : string)
| Failed (status : Z) (error : string).

(** How the handler ends: a reply was sent, or an exception left it. *)
Inductive outcome :=
| Sent (r : reply)
| Threw.

(** The calls to [fs] the handler makes, in order. *)
Inductive fscall :=
| ReadFileSync (p : string)
| WriteFileSync (p : string) (data : string).

(** The host: the text of the files that can be read, the paths that
    cannot be written, and the message of the error [fs] throws on a
    path. *)
Record host := {
  texts : gmap string string;
  readonly : gset string;
  message : string → string
}.

Definition with_text (h : host) (p data : string) : host :=
  {| texts := <[p := data]> (texts h);
     readonly := readonly h;
     message := message h |}.

Section Route.

Variable formatJavaScript : string → string.
Variable formatJSON : string → option string.
Variable formatHTML : string → string.
Variable formatCSS : string → string.

(** The [switch] on the extension: [None] for the [default] branch, and
    inside it [None] when the formatter throws. *)
Definition formatted (extension : value) (content : string)
    : option (option string) :=
  match extension with
  | Str ext =>
      if bool_decide (ext = ".js") || bool_decide (ext = ".jsx")
      then Some (Some (formatJavaScript content))
      else if bool_decide (ext = ".json") then Some (formatJSON content)
      else if bool_decide (ext = ".html") then Some (Some (formatHTML content))
      else if bool_decide (ext = ".css") then Some (Some (formatCSS content))
      else None
  | _ => None
  end.

(** The handler.  [path.join] throws on a [filepath] that is not a string,
    outside the [try]; everything [fs] or a formatter throws is caught and
    answered 500 with the message of the error. *)
Definition formatFile (watchDir : string) (filepath extension : value)
    (h : host) : host * list fscall * outcome :=
  if negb (truthy filepath) || negb (truthy extension) then
    (h, [], Sent (Failed 400 "Missing filepath or extension"))
  else
    match filepath with
    | Str filepath =>
        let fullPath := Path.join [watchDir; filepath] in
        match texts h !! fullPath with
        | None =>
            (h, [ReadFileSync fullPath],
             Sent (Failed 500 (message h fullPath)))
        | Some content =>
            match formatted extension content with
            | None =>
                (h, [ReadFileSync fullPath],
                 Sent (Failed 400 "File type not supported for formatting"))
            | Some None =>
                (h, [ReadFileSync fullPath],
                 Sent (Failed 500 "Invalid JSON content"))
            | Some (Some formattedContent) =>
                if bool_decide (fullPath ∈ readonly h) then
                  (h, [ReadFileSync fullPath;
                       WriteFileSync fullPath formattedContent],
                   Sent (Failed 500 (message h fullPath)))
                else
                  (with_text h fullPath formattedContent,
                   [ReadFileSync fullPath;
                    WriteFileSync fullPath formattedContent],
                   Sent (Formatted "File formatted successfully"))
            end
        end
    | _ => (h, [], Threw)
    end.

End Route.

End Format.

(** ** The artifact helper: [ClaudeQuickViewHelper] *)
Module Artifacts.
Import Exec.


Section Helper.

(** The text an inherited value gives when it is spliced into a string. *)
Variable inherited_text : string → string.






Definition artifactDir (baseDir : string) : string :=
  Path.join [baseDir; "artifacts"].


End Helper.


(** What [statSync] finds for an entry of an artifact directory: a regular
    file with the time it was modified and its size, something else, or
    nothing ([statSync] throws). *)
Inductive stat :=
| Regular (mtime : Z) (size : Z)
| Other
| Missing.

(** The objects pushed on [artifacts]. *)
Record artifact := {
  name : string;
  path : string;
  relativePath : string;
  category : string;
  modified : Z;
  size : Z
}.

Definition is_artifact (file : string) : bool :=
  Js.startsWith file "artifact-" || Js.startsWith file "component-"
  || Js.startsWith file "script-" || Js.startsWith file "style-"
  || Js.startsWith file "data-".

(** The object [scanDir] pushes for a regular file [file] of [dir]; [cwd]
    is the working directory of the process. *)
Definition found (cwd baseDir dir category file : string) (mtime sz : Z)
    : artifact :=
  let fullPath := Path.join [dir; file] in
  {| name := file;
     path := fullPath;
     relativePath := Path.relative cwd baseDir fullPath;
     category := if bool_decide (category = "") then "general" else category;
     modified := mtime;
     size := sz |}.

(** [scanDir(dir, category)] on a directory that exists, given its
    listing: the artifacts it pushes, or [None] when [statSync] throws. *)
Fixpoint scan (cwd baseDir dir category : string)
    (listing : list (string * stat)) : option (list artifact) :=
  match listing with
  | [] => Some []
  | (file, st) :: listing' =>
      match st with
      | Missing => None
      | Other => scan cwd baseDir dir category listing'
      | Regular mtime sz =>
          rest ← scan cwd baseDir dir category listing';
          Some (if is_artifact file
                then found cwd baseDir dir category file mtime sz :: rest
                else rest)
      end
  end.

(** The six directories [listArtifacts] scans, with their categories. *)
Definition scanned (baseDir : string) : list (string * string) :=
  let top := artifactDir baseDir in
  [(top, "");
   (Path.join [top; "components"], "components");
   (Path.join [top; "pages"], "pages");
   (Path.join [top; "scripts"], "scripts");
   (Path.join [top; "styles"], "styles");
   (Path.join [top; "data"], "data")].

(** The scans one after the other, each adding to [artifacts].  [disk]
    gives the listing of the directories that exist, [None] for one that
    [readdirSync] throws on; a directory that does not exist is passed
    over. *)
Fixpoint scan_all (cwd baseDir : string)
    (disk : gmap string (option (list (string * stat))))
    (dirs : list (string * string)) : option (list artifact) :=
  match dirs with
  | [] => Some []
  | (dir, category) :: dirs' =>
      pushed ← match disk !! dir with
               | None => Some []
               | Some None => None
               | Some (Some listing) => scan cwd baseDir dir category listing
               end;
      rest ← scan_all cwd baseDir disk dirs';
      Some (pushed ++ rest)
  end.

(** [(a, b) => b.modified - a.modified] is not positive. *)
Definition newer_first (a b : artifact) : Prop := modified b - modified a ≤ 0.

#[export] Instance newer_first_dec : RelDecision newer_first.
Proof. intros a b. unfold newer_first. apply _. Defined.

(** [listArtifacts()]: [None] when it throws. *)
Definition listArtifacts (cwd baseDir : string)
    (disk : gmap string (option (list (string * stat))))
    : option (list artifact) :=
  merge_sort newer_first <$> scan_all cwd baseDir disk (scanned baseDir).

End Artifacts.
(** The examples of Node's documentation. *)
Example basename_doc :
  Path.basename "/foo/bar/baz/asdf/quux.html" = "quux.html"
  ∧ Path.basename ".ssh/config" = "config"
  ∧ Path.basename "site/.env/" = ".env"
  ∧ Path.basename "" = "".
Proof. by vm_compute. Qed.

Example dirname_doc :
  Path.dirname "/foo/bar/baz/asdf/quux" = "/foo/bar/baz/asdf"
  ∧ Path.dirname "/srv/app/temp/run_17.py" = "/srv/app/temp"
  ∧ Path.dirname "/foo" = "/" ∧ Path.dirname "foo" = "."
  ∧ Path.dirname "//foo" = "//" ∧ Path.dirname "a//b" = "a/".
Proof. by vm_compute. Qed.

Example extname_doc :
  Path.extname "index.html" = ".html"
  ∧ Path.extname "index.coffee.md" = ".md"
  ∧ Path.extname "index." = "."
  ∧ Path.extname "index" = ""
  ∧ Path.extname ".index" = ""
  ∧ Path.extname ".index.md" = ".md"
  ∧ Path.extname ".." = "".
Proof. by vm_compute. Qed.

Example normalize_doc :
  Path.normalize "/foo/bar//baz/asdf/quux/.." = "/foo/bar/baz/asdf"
  ∧ Path.normalize "../a/./b/../c/" = "../a/c/"
  ∧ Path.normalize "/.." = "/"
  ∧ Path.normalize "./" = "./".
Proof. by vm_compute. Qed.

Example join_doc :
  Path.join ["/foo"; "bar"; "baz/asdf"; "quux"; ".."] = "/foo/bar/baz/asdf"
  ∧ Path.join [""; "notes.txt"] = "notes.txt"
  ∧ Path.join ["docs"; "notes.txt"] = "docs/notes.txt"
  ∧ Path.join [""; ""] = ".".
Proof. by vm_compute. Qed.

Example relative_doc :
  Path.relative "/" "/data/orandea/test/aaa" "/data/orandea/impl/bbb"
    = "../../impl/bbb"
  ∧ Path.relative "/" "/home/ana/site" "/home/ana/site/css/main.css"
    = "css/main.css"
  ∧ Path.relative "/home/ana" "site" "/home/ana/site/index.html"
    = "index.html"
  ∧ Path.relative "/" "/a" "/a" = "".
Proof. by vm_compute. Qed.

Example js_string_doc :
  Js.startsWith ".env" "." = true
  ∧ Js.endsWith ".notes.html" ".html" = true
  ∧ Js.endsWith ".env" ".html" = false
  ∧ Js.endsWith "html" ".html" = false
  ∧ Js.toLowerCase "README.MD" = "readme.md"
  ∧ Js.length "main" = 4
  ∧ Js.byteLength (String (ascii_of_N 233) "") = 2.
Proof. by vm_compute. Qed.

Example getFileTree_site :
  Snapshot.getFileTree Snapshot.codeUnitCompare
    (Snapshot.Dir true
       [("index.html", Snapshot.File 120);
        (".git", Snapshot.Dir true []);
        ("css", Snapshot.Dir true [("Main.CSS", Snapshot.File 7)]);
        ("node_modules", Snapshot.Dir true [("x.js", Snapshot.File 1)]);
        ("app.js", Snapshot.File 64)]) ""
  = [Snapshot.Directory "css" "css"
       [Snapshot.FileEntry "Main.CSS" "css/Main.CSS" ".css" 7];
     Snapshot.FileEntry "app.js" "app.js" ".js" 64;
     Snapshot.FileEntry "index.html" "index.html" ".html" 120].
Proof. by vm_compute. Qed.

(** ** The snapshot builder *)
Section SnapshotFacts.
Import Snapshot.

Variable localeCompare : string → string → Z.

(** Induction on what the host holds, with the hypothesis for every entry
    of a directory. *)
Lemma fsnode_ind_entries (P : fsnode → Prop) :
  (∀ size, P (File size)) →
  (∀ listable entries,
     Forall (λ e, P e.2) entries → P (Dir listable entries)) →
  P NoStat →
  ∀ n, P n.
Proof.
  intros HFile HDir HNo.
  fix IH 1. intros [size|listable entries|]; [apply HFile| |apply HNo].
  apply HDir. induction entries as [|[file stat] entries IHentries].
  - constructor.
  - constructor; [apply IH|apply IHentries].
Qed.

Lemma getFileTree_unfold dir prefix :
  getFileTree localeCompare dir prefix
  = sort localeCompare
      match dir with
      | Dir true files => loop localeCompare prefix files
      | _ => []
      end.
Proof.
  destruct dir as [size|[] files|]; try reflexivity.
  cbn [getFileTree]. f_equal.
  induction files as [|[file stat] files IH]; [reflexivity|].
  cbn [loop]. unfold skipped. rewrite <- IH.
  destruct (hidden file); [reflexivity|].
  destruct (bool_decide (file = "node_modules")); reflexivity.
Qed.

Lemma sort_perm items : sort localeCompare items ≡ₚ items.
Proof. apply merge_sort_Permutation. Qed.

Lemma elem_of_sort it items : it ∈ sort localeCompare items ↔ it ∈ items.
Proof. by rewrite sort_perm. Qed.

(** Where an item of the loop comes from. *)
Lemma elem_of_loop it prefix files :
  it ∈ loop localeCompare prefix files →
  ∃ file stat,
    (file, stat) ∈ files ∧ skipped file = false ∧ name it = file
    ∧ children it = match stat with
                    | Dir _ _ =>
                        getFileTree localeCompare stat
                          (Path.join [prefix; file])
                    | _ => []
                    end.
Proof.
  induction files as [|[file stat] files IH]; cbn [loop].
  { by intros ?%elem_of_nil. }
  destruct (skipped file) eqn:Hskip.
  { intros (f & s & ? & ?)%IH. exists f, s. split; [by right|done]. }
  destruct stat as [size|listable entries|].
  - intros [->|Hin]%elem_of_cons.
    + exists file, (File size). split; [by left|done].
    + destruct (IH Hin) as (f & s & ? & ?). exists f, s. split; [by right|done].
  - intros [->|Hin]%elem_of_cons.
    + exists file, (Dir listable entries). split; [by left|done].
    + destruct (IH Hin) as (f & s & ? & ?). exists f, s. split; [by right|done].
  - by intros ?%elem_of_nil.
Qed.

(** The loop on a listing in two parts: the second part is reached only
    when no entry kept from the first made [statSync] throw. *)
Lemma loop_app prefix before after :
  loop localeCompare prefix (before ++ after)
  = loop localeCompare prefix before
    ++ (if reaches_end before then loop localeCompare prefix after else []).
Proof.
  induction before as [|[file stat] before IH]; [reflexivity|].
  cbn [app loop reaches_end forallb fst snd].
  destruct (skipped file); cbn [orb andb]; [done|].
  destruct stat; cbn [statable andb]; [by rewrite IH..|done].
Qed.

Lemma item_levels_children it l :
  l ∈ item_levels it → l ∈ levels (children it).
Proof. destruct it; [done|]. by intros ?%elem_of_nil. Qed.

(** A property of sibling lists that holds of the empty list and of every
    sorted loop result holds at every level of a snapshot. *)
Lemma levels_all (Q : list item → Prop) :
  Q [] →
  (∀ prefix files, Q (sort localeCompare (loop localeCompare prefix files))) →
  ∀ dir prefix l, l ∈ levels (getFileTree localeCompare dir prefix) → Q l.
Proof.
  intros Hnil Hloop dir.
  induction dir as [size|listable entries IH|] using fsnode_ind_entries;
    intros prefix l; rewrite getFileTree_unfold.
  - intros [->|[]%elem_of_nil]%elem_of_cons. apply Hnil.
  - destruct listable; [|intros [->|[]%elem_of_nil]%elem_of_cons; apply Hnil].
    intros [->|Hin]%elem_of_cons; [apply Hloop|].
    apply list_elem_of_In, in_flat_map in Hin as (it & Hit & Hl).
    apply list_elem_of_In, elem_of_sort, elem_of_loop in Hit
      as (file & stat & Hentry & _ & _ & Hch).
    apply list_elem_of_In, item_levels_children in Hl. rewrite Hch in Hl.
    rewrite Forall_forall in IH. specialize (IH _ Hentry). cbn in IH.
    destruct stat; [|by eapply IH|].
    all: apply elem_of_cons in Hl as [->|[]%elem_of_nil]; apply Hnil.
  - intros [->|[]%elem_of_nil]%elem_of_cons. apply Hnil.
Qed.

Lemma loop_complete prefix files file stat :
  forallb (λ e, statable e.2) files = true →
  (file, stat) ∈ files →
  skipped file = false →
  ∃ it, it ∈ loop localeCompare prefix files ∧ name it = file.
Proof.
  induction files as [|[f s] files IH]; [by intros _ ?%elem_of_nil|].
  cbn [forallb snd loop]. intros [Hs Hrest]%andb_prop Hin Hkeep.
  assert (∀ it, it ∈ loop localeCompare prefix files →
                it ∈ (if skipped f then loop localeCompare prefix files
                      else match s with
                           | NoStat => []
                           | Dir _ _ =>
                               Directory f (Path.join [prefix; f])
                                 (getFileTree localeCompare s
                                    (Path.join [prefix; f]))
                                 :: loop localeCompare prefix files
                           | File size =>
                               FileEntry f (Path.join [prefix; f])
                                 (Js.toLowerCase (Path.extname f)) size
                                 :: loop localeCompare prefix files
                           end)) as Hkeeps.
  { intros it Hit. destruct (skipped f); [done|].
    destruct s; [by right..|done]. }
  apply elem_of_cons in Hin as [[= <- <-]|Hin].
  - rewrite Hkeep. destruct stat; [| |done]; eexists; (split; [by left|done]).
  - destruct (IH Hrest Hin Hkeep) as (it & Hit & Hname). eauto.
Qed.

Lemma StronglySorted_lookup {A} (R : relation A) (l : list A) i j a b :
  StronglySorted R l → (i < j)%nat → l !! i = Some a → l !! j = Some b → R a b.
Proof.
  intros Hl. revert i j. induction Hl as [|x l Hl IH Hx]; intros i j Hij Hi Hj.
  { by rewrite lookup_nil in Hi. }
  destruct j as [|j]; [lia|]. cbn in Hj. destruct i as [|i]; cbn in Hi.
  - simplify_eq. rewrite Forall_forall in Hx.
    apply Hx. by eapply list_elem_of_lookup_2.
  - eapply (IH i j); [lia|done..].
Qed.

Lemma item_le_reading a b :
  item_le localeCompare a b →
  (type b = "directory" → type a = "directory")
  ∧ (type a = type b → localeCompare (name a) (name b) ≤ 0).
Proof.
  unfold item_le, compareItems. repeat case_bool_decide; try lia; [|done].
  intros ?. split; [congruence|done].
Qed.

(** *** Sorting *)
Section Sorted.

Hypothesis localeCompare_trans :
  ∀ a b c,
    localeCompare a b ≤ 0 → localeCompare b c ≤ 0 → localeCompare a c ≤ 0.
Hypothesis localeCompare_total :
  ∀ a b, localeCompare a b ≤ 0 ∨ localeCompare b a ≤ 0.

#[local] Instance item_le_trans : Transitive (item_le localeCompare).
Proof using localeCompare_trans.
  intros a b c. unfold item_le, compareItems.
  destruct a, b, c; cbn [type name]; repeat case_bool_decide;
    try done; try lia; eauto.
Qed.

#[local] Instance item_le_total : Total (item_le localeCompare).
Proof using localeCompare_total.
  intros a b. unfold item_le, compareItems.
  destruct a, b; cbn [type name]; repeat case_bool_decide;
    try done; try (left; lia); try (right; lia); eauto.
Qed.

Lemma sort_sorted items :
  StronglySorted (item_le localeCompare) (sort localeCompare items).
Proof using localeCompare_trans localeCompare_total.
  apply StronglySorted_merge_sort; apply _.
Qed.

(** C8. At every level of the snapshot of any directory tree, an item
    placed before another is a directory whenever the later one is, and when
    the two are of the same kind their names are in the order of
    [localeCompare]: all directories come before all files, and within each
    kind the siblings are ordered by name. *)
Theorem C8_directories_first_then_by_name dir prefix l i j a b :
  l ∈ levels (getFileTree localeCompare dir prefix) →
  (i < j)%nat → l !! i = Some a → l !! j = Some b →
  (type b = "directory" → type a = "directory")
  ∧ (type a = type b → localeCompare (name a) (name b) ≤ 0).
Proof using localeCompare_trans localeCompare_total.
  intros Hl Hij Hi Hj. apply item_le_reading.
  eapply StronglySorted_lookup; [|done..].
  revert Hl. apply levels_all; [constructor|].
  intros. apply sort_sorted.
Qed.

End Sorted.

(** C7, as amended.  A failure stays inside the directory it happens in, and
    no error leaves the scan.  A directory that cannot be listed is kept,
    with no children, and its siblings are kept with it; an entry on which
    [statSync] throws ends the loop of its parent: the items of the entries
    listed before it are kept, and it and the entries listed after it are
    left out. *)
Theorem C7_failed_stat_ends_the_loop prefix before file after :
  skipped file = false →
  getFileTree localeCompare
    (Dir true (before ++ (file, NoStat) :: after)) prefix
  = getFileTree localeCompare (Dir true before) prefix
  ∧ (∀ entries,
       reaches_end before = true →
       getFileTree localeCompare
         (Dir true (before ++ (file, Dir false entries) :: after)) prefix
       ≡ₚ Directory file (Path.join [prefix; file]) []
            :: getFileTree localeCompare (Dir true (before ++ after)) prefix)
  ∧ (∀ entries, getFileTree localeCompare (Dir false entries) prefix = []).
Proof.
  intros Hkeep. split; [|split].
  - rewrite !getFileTree_unfold, loop_app. cbn [loop]. rewrite Hkeep.
    by destruct (reaches_end before); rewrite app_nil_r.
  - intros entries Hend.
    rewrite !getFileTree_unfold, !sort_perm, !loop_app, Hend.
    cbn [loop]. rewrite Hkeep, getFileTree_unfold.
    change (sort localeCompare []) with (@nil item).
    by rewrite <- Permutation_middle.
  - intros entries. by rewrite getFileTree_unfold.
Qed.

(** C9. No item of a snapshot, at any level, has a name that begins with a
    dot without ending in [.html], or the name [node_modules]; in a
    directory whose entries can all be examined, every other entry has its
    item.  So [.env] is left out, [.notes.html] is kept, and
    [node_modules] is left out. *)
Theorem C9_hidden_and_node_modules_excluded :
  (∀ dir prefix l it,
     l ∈ levels (getFileTree localeCompare dir prefix) → it ∈ l →
     skipped (name it) = false)
  ∧ (∀ prefix files file stat,
       forallb (λ e, statable e.2) files = true →
       (file, stat) ∈ files →
       skipped file = false →
       file ∈ (name <$> getFileTree localeCompare (Dir true files) prefix))
  ∧ (∀ file,
       skipped file
       = Js.startsWith file "." && negb (Js.endsWith file ".html")
         || bool_decide (file = "node_modules"))
  ∧ skipped ".env" = true
  ∧ skipped ".notes.html" = false
  ∧ skipped "node_modules" = true.
Proof.
  split; [|split; [|by repeat split]].
  - intros dir prefix l it Hl. revert it. revert Hl.
    apply (levels_all (λ l, ∀ it, it ∈ l → skipped (name it) = false)).
    + by intros it ?%elem_of_nil.
    + intros p files it (f & s & _ & Hkeep & -> & _)%elem_of_sort%elem_of_loop.
      done.
  - intros prefix files file stat Hall Hin Hkeep.
    destruct (loop_complete prefix files file stat Hall Hin Hkeep)
      as (it & Hit & <-).
    apply list_elem_of_fmap_2. by rewrite getFileTree_unfold, elem_of_sort.
Qed.

End SnapshotFacts.

(** The order of the code units is a collation. *)
Lemma codeUnitCompare_le a b :
  Snapshot.codeUnitCompare a b ≤ 0 ↔ String.le a b.
Proof.
  unfold Snapshot.codeUnitCompare, String.le, String.leb.
  destruct (String.compare a b); cbn; split; (done || lia).
Qed.

Lemma codeUnitCompare_trans a b c :
  Snapshot.codeUnitCompare a b ≤ 0 → Snapshot.codeUnitCompare b c ≤ 0 →
  Snapshot.codeUnitCompare a c ≤ 0.
Proof. rewrite !codeUnitCompare_le. apply transitivity. Qed.

Lemma codeUnitCompare_total a b :
  Snapshot.codeUnitCompare a b ≤ 0 ∨ Snapshot.codeUnitCompare b a ≤ 0.
Proof. rewrite !codeUnitCompare_le. apply total, _. Qed.

Lemma C8_witness :
  let css := Snapshot.Directory "css" "css" [] in
  let app := Snapshot.FileEntry "app.js" "app.js" ".js" 64 in
  (Snapshot.type app = "directory" → Snapshot.type css = "directory")
  ∧ (Snapshot.type css = Snapshot.type app →
     Snapshot.codeUnitCompare (Snapshot.name css) (Snapshot.name app) ≤ 0).
Proof.
  intros css app.
  apply (C8_directories_first_then_by_name Snapshot.codeUnitCompare
           codeUnitCompare_trans codeUnitCompare_total
           (Snapshot.Dir true
              [("index.html", Snapshot.File 120);
               ("css", Snapshot.Dir true []);
               ("app.js", Snapshot.File 64)])
           ""
           [css; app; Snapshot.FileEntry "index.html" "index.html" ".html" 120]
           0%nat 1%nat).
  - vm_compute. left.
  - lia.
  - reflexivity.
  - reflexivity.
Defined.

(** C7, as it is stated, fails: the entry listed first cannot be examined,
    and its readable sibling [index.html] is missing from a snapshot that
    comes out empty. *)
Lemma C7_unreadable_entry_blanks_the_snapshot :
  let files := [("stale-link", Snapshot.NoStat);
                ("index.html", Snapshot.File 120)] in
  let snapshot :=
    Snapshot.getFileTree Snapshot.codeUnitCompare
      (Snapshot.Dir true files) "" in
  Snapshot.statable (Snapshot.File 120) = true
  ∧ Snapshot.skipped "index.html" = false
  ∧ ¬ ("index.html" ∈ (Snapshot.name <$> snapshot))
  ∧ snapshot = [].
Proof.
  vm_compute. split; [done|]. split; [done|]. split; [|done].
  by intros ?%elem_of_nil.
Qed.

Lemma C7_witness :
  let before := [("app.js", Snapshot.File 64)] in
  let after := [("index.html", Snapshot.File 120)] in
  Snapshot.skipped "cache" = false
  ∧ Snapshot.reaches_end before = true
  ∧ Snapshot.getFileTree Snapshot.codeUnitCompare
      (Snapshot.Dir true (before ++ ("cache", Snapshot.NoStat) :: after)) ""
    = [Snapshot.FileEntry "app.js" "app.js" ".js" 64]
  ∧ Snapshot.getFileTree Snapshot.codeUnitCompare
      (Snapshot.Dir true
         (before ++ ("cache", Snapshot.Dir false []) :: after)) ""
    ≡ₚ [Snapshot.Directory "cache" "cache" [];
        Snapshot.FileEntry "app.js" "app.js" ".js" 64;
        Snapshot.FileEntry "index.html" "index.html" ".html" 120].
Proof.
  intros before after.
  assert (Snapshot.skipped "cache" = false) as Hkeep by reflexivity.
  assert (Snapshot.reaches_end before = true) as Hend by reflexivity.
  destruct (C7_failed_stat_ends_the_loop Snapshot.codeUnitCompare
              "" before "cache" after Hkeep) as (Hstop & Hdir & _).
  split; [done|]. split; [done|]. split.
  - rewrite Hstop. reflexivity.
  - rewrite (Hdir [] Hend). vm_compute. reflexivity.
Defined.

Lemma C9_witness :
  let files := [(".env", Snapshot.File 30);
                (".notes.html", Snapshot.File 210);
                ("node_modules", Snapshot.Dir true []);
                ("index.html", Snapshot.File 120)] in
  let snapshot :=
    Snapshot.getFileTree Snapshot.codeUnitCompare
      (Snapshot.Dir true files) "" in
  forallb (λ e, Snapshot.statable e.2) files = true
  ∧ ".notes.html" ∈ (Snapshot.name <$> snapshot)
  ∧ ¬ (".env" ∈ (Snapshot.name <$> snapshot))
  ∧ ¬ ("node_modules" ∈ (Snapshot.name <$> snapshot)).
Proof.
  intros files snapshot.
  destruct (C9_hidden_and_node_modules_excluded Snapshot.codeUnitCompare)
    as (Hout & Hin & _).
  assert (forallb (λ e, Snapshot.statable e.2) files = true) as Hall
    by reflexivity.
  split; [done|]. split; [|split].
  - apply (Hin "" files ".notes.html" (Snapshot.File 210) Hall);
      [|reflexivity]. right. left.
  - intros (it & Hname & Hit)%list_elem_of_fmap.
    assert (Snapshot.skipped (Snapshot.name it) = false) as Hkeep.
    { eapply (Hout _ "" snapshot); [left|done]. }
    by rewrite <- Hname in Hkeep.
  - intros (it & Hname & Hit)%list_elem_of_fmap.
    assert (Snapshot.skipped (Snapshot.name it) = false) as Hkeep.
    { eapply (Hout _ "" snapshot); [left|done]. }
    by rewrite <- Hname in Hkeep.
Defined.

(** ** The execution route *)
Section ExecFacts.
Import Exec.

Lemma recent_all now executions :
  Forall (λ time, now - time < 60000) executions →
  recent now executions = executions.
Proof.
  unfold recent. induction 1 as [|t l Ht _ IH]; [done|].
  by rewrite filter_cons_True, IH.
Qed.

Lemma recent_length now executions :
  (length (recent now executions) ≤ length executions)%nat.
Proof. apply length_filter. Qed.

Lemma elem_of_recent now executions t :
  t ∈ recent now executions → t ∈ executions.
Proof. unfold recent. by intros [_ ?]%list_elem_of_filter. Qed.

(** The two ways past the rate check. *)
Lemma executePython_limited dirname req now stamp w :
  (5 ≤ length (recent now (window w (clientIP req))))%nat →
  executePython dirname req now stamp w = (w, [], Replied too_many).
Proof.
  intros Hfull. unfold executePython. fold (window w (clientIP req)).
  by rewrite bool_decide_eq_true_2.
Qed.

Lemma executePython_recorded dirname req now stamp w :
  (length (recent now (window w (clientIP req))) < 5)%nat →
  ∃ w' log o,
    executePython dirname req now stamp w = (w', log, o)
    ∧ o ≠ Replied too_many
    ∧ pythonExecutionCount w'
      = <[clientIP req := recent now (window w (clientIP req)) ++ [now]]>
          (pythonExecutionCount w)
    ∧ refused w' = refused w.
Proof.
  intros Hroom. unfold executePython. fold (window w (clientIP req)).
  rewrite bool_decide_eq_false_2 by lia.
  destruct (negb (truthy (code req)) || negb (is_string (code req)));
    [by eexists _, _, _|].
  destruct (50000 <? Js.length (show (code req))); [by eexists _, _, _|].
  case_bool_decide; cbn.
  - unfold writeFileSync. case_bool_decide; by eexists _, _, _.
  - unfold mkdirSync. cbn. case_bool_decide; cbn; [by eexists _, _, _|].
    unfold writeFileSync. cbn. case_bool_decide; by eexists _, _, _.
Qed.

Lemma window_fresh client : window fresh client = [].
Proof. unfold window, fresh. cbn. by rewrite lookup_empty. Qed.

(** What one request does to the list of a client. *)
Lemma executePython_window dirname req now stamp w client :
  let '(w', _, o) := executePython dirname req now stamp w in
  (window w' client = window w client
   ∧ (client = clientIP req → o = Replied too_many))
  ∨ (client = clientIP req ∧ o ≠ Replied too_many
     ∧ (length (recent now (window w client)) < 5)%nat
     ∧ window w' client = recent now (window w client) ++ [now]).
Proof.
  destruct (decide (5 ≤ length (recent now (window w (clientIP req))))%nat)
    as [Hfull|Hroom].
  - rewrite executePython_limited by done. by left.
  - destruct (executePython_recorded dirname req now stamp w)
      as (w' & log & o & -> & Ho & Hcount & _); [lia|].
    destruct (decide (client = clientIP req)) as [->|Hother].
    + right. repeat split; [done|lia|].
      unfold window at 1. by rewrite Hcount, lookup_insert_eq.
    + left. split; [|done]. unfold window. by rewrite Hcount, lookup_insert_ne.
Qed.

Lemma serve_bound dirname reqs w :
  (∀ client, (length (window w client) ≤ 5)%nat) →
  ∀ client, (length (window (serve dirname reqs w).1 client) ≤ 5)%nat.
Proof.
  revert w.
  induction reqs as [|[[req now] stamp] reqs IH]; intros w Hw; [done|].
  cbn [serve].
  destruct (executePython dirname req now stamp w) as [[w' log] o] eqn:Hstep.
  specialize (IH w'). destruct (serve dirname reqs w') as [w'' os].
  apply IH. intros client.
  pose proof (executePython_window dirname req now stamp w client) as Hwin.
  rewrite Hstep in Hwin.
  destruct Hwin as [[-> _]|(_ & _ & Hroom & ->)]; [done|].
  rewrite length_app. cbn. lia.
Qed.

Lemma serve_admitted dirname reqs w client t :
  t ∈ window (serve dirname reqs w).1 client →
  t ∈ window w client ∨ (client, t) ∈ counted dirname reqs w.
Proof.
  revert w.
  induction reqs as [|[[req now] stamp] reqs IH]; intros w; [by left|].
  cbn [serve counted].
  pose proof (executePython_window dirname req now stamp w client) as Hwin.
  destruct (executePython dirname req now stamp w) as [[w' log] o] eqn:Hstep.
  specialize (IH w'). destruct (serve dirname reqs w') as [w'' os].
  intros [Hold|Hlater]%IH; [|right; apply elem_of_app; by right].
  destruct Hwin as [[Hsame _]|(-> & Ho & _ & Hnew)].
  { left. by rewrite <- Hsame. }
  rewrite Hnew in Hold. apply elem_of_app in Hold as [Hold|Hold].
  - left. by eapply elem_of_recent.
  - apply list_elem_of_singleton in Hold as ->. right.
    rewrite bool_decide_eq_false_2 by done. by left.
Qed.

(** C2, as amended.  A request refused by the rate check leaves the table
    as it was and touches nothing.  Any other request, whether it goes on to
    run or is then refused for its body, has its time appended to the
    client's list as pruned to the last 60 seconds, and that list then holds
    at most 5 times.  So, after any run of requests, the list of every
    client holds at most 5 times, each the time of a request of that client
    that went past the rate check. *)
Theorem C2_window_holds_requests_past_the_rate_check dirname :
  (∀ req now stamp w,
     let kept := recent now (window w (clientIP req)) in
     let '(w', log, o) := executePython dirname req now stamp w in
     if bool_decide (5 ≤ length kept)%nat
     then o = Replied too_many ∧ w' = w ∧ log = []
     else o ≠ Replied too_many
          ∧ window w' (clientIP req) = kept ++ [now]
          ∧ (length (kept ++ [now]) ≤ 5)%nat
          ∧ Forall (λ time, now - time < 60000) (kept ++ [now]))
  ∧ (∀ reqs client,
       let w := (serve dirname reqs fresh).1 in
       (length (window w client) ≤ 5)%nat
       ∧ Forall (λ t, (client, t) ∈ counted dirname reqs fresh)
           (window w client)).
Proof.
  split.
  - intros req now stamp w kept. case_bool_decide as Hfull.
    + by rewrite executePython_limited.
    + destruct (executePython_recorded dirname req now stamp w)
        as (w' & log & o & -> & Ho & Hcount & _); [fold kept; lia|].
      fold kept in Hcount. repeat split; [done| | |].
      * unfold window. by rewrite Hcount, lookup_insert_eq.
      * rewrite length_app. cbn. lia.
      * apply Forall_app. split; [|repeat constructor; lia].
        apply Forall_forall. by intros t [? _]%list_elem_of_filter.
  - intros reqs client w. split.
    + apply serve_bound. intros c. rewrite window_fresh. cbn. lia.
    + apply Forall_forall. intros t Ht.
      apply serve_admitted in Ht as [Ht|Ht]; [|done].
      rewrite window_fresh in Ht. by apply elem_of_nil in Ht.
Qed.

Lemma executePython_invalid dirname req now stamp w :
  (length (recent now (window w (clientIP req))) < 5)%nat →
  negb (truthy (code req)) || negb (is_string (code req)) = true →
  executePython dirname req now stamp w
  = (recorded req now w, [], Replied invalid_code).
Proof.
  intros Hroom Hbad. unfold executePython. fold (window w (clientIP req)).
  rewrite bool_decide_eq_false_2 by lia. by rewrite Hbad.
Qed.

Lemma executePython_too_large dirname req now stamp w :
  (length (recent now (window w (clientIP req))) < 5)%nat →
  negb (truthy (code req)) || negb (is_string (code req)) = false →
  50000 < Js.length (show (code req)) →
  executePython dirname req now stamp w
  = (recorded req now w, [], Replied too_large).
Proof.
  intros Hroom Hok Hlong. unfold executePython. fold (window w (clientIP req)).
  rewrite bool_decide_eq_false_2 by lia. rewrite Hok.
  by rewrite (proj2 (Z.ltb_lt _ _) Hlong).
Qed.

Lemma executePython_staged dirname req now stamp w :
  (length (recent now (window w (clientIP req))) < 5)%nat →
  negb (truthy (code req)) || negb (is_string (code req)) = false →
  Js.length (show (code req)) ≤ 50000 →
  ∃ w' log o,
    executePython dirname req now stamp w = (w', log, o)
    ∧ (o = Thrown ∨ o = Replied no_temp_file
       ∨ ∃ c, o = Started c ∧ Spawn "python3" [tempFile c] ∈ log
              ∧ (refused w = ∅ → refused w' = ∅)
              ∧ pythonExecutionCount w'
                = pythonExecutionCount (recorded req now w))
    ∧ (refused w = ∅ → ∃ c, o = Started c).
Proof.
  intros Hroom Hok Hshort. unfold executePython. fold (window w (clientIP req)).
  rewrite bool_decide_eq_false_2 by lia. rewrite Hok.
  rewrite (proj2 (Z.ltb_ge _ _) Hshort).
  fold (recorded req now w).
  set (tempFile := Path.join _).
  assert (∀ w1 log1,
            refused w1 = refused w →
            pythonExecutionCount w1
            = pythonExecutionCount (recorded req now w) →
            ∃ w' log o,
              match writeFileSync tempFile w1 with
              | Some w2 =>
                  (w2,
                   log1 ++ [WriteFileSync tempFile (show (code req));
                            Spawn "python3" [tempFile]],
                   Started {| Exec.tempFile := tempFile;
                              captured_output := "";
                              captured_error := "" |})
              | None =>
                  (w1, log1 ++ [WriteFileSync tempFile (show (code req))],
                   Replied no_temp_file)
              end = (w', log, o)
              ∧ (o = Thrown ∨ o = Replied no_temp_file
                 ∨ ∃ c, o = Started c ∧ Spawn "python3" [Exec.tempFile c] ∈ log
                        ∧ (refused w = ∅ → refused w' = ∅)
                        ∧ pythonExecutionCount w'
                          = pythonExecutionCount (recorded req now w))
              ∧ (refused w = ∅ → ∃ c, o = Started c)) as Hwrite.
  { intros w1 log1 Href Hcount. unfold writeFileSync. case_bool_decide as Hno.
    - eexists _, _, _. split; [done|]. split; [by right; left|].
      intros Hnone. rewrite Href, Hnone in Hno.
      by apply not_elem_of_empty in Hno.
    - eexists _, _, _. split; [done|]. split; [|by eexists].
      right; right. eexists. split; [done|]. cbn. split; [|by rewrite Href].
      apply elem_of_app. right. right. left. }
  case_bool_decide as Hdir; cbn.
  - apply (Hwrite _ []); done.
  - unfold mkdirSync. case_bool_decide as Hno; cbn.
    + eexists _, _, _. split; [done|]. split; [by left|].
      cbn in Hno. intros Hnone. rewrite Hnone in Hno.
      by apply not_elem_of_empty in Hno.
    + apply (Hwrite _ [MkdirSync _]); done.
Qed.

Lemma valid_body_text req :
  negb (truthy (code req)) || negb (is_string (code req)) = false →
  ∃ text, code req = Str text ∧ text ≠ "".
Proof.
  destruct (code req) as [| | | |text|]; cbn; try done;
    try by rewrite orb_true_r.
  rewrite orb_false_r, negb_involutive.
  case_bool_decide; [done|]. by exists text.
Qed.

(** C4, as amended.  A request is refused as too large exactly when it is
    past the rate check and its code is a string of more than 50000 code
    units, whatever that is in bytes; nothing was written or spawned for it
    and the disk is as it was. *)
Theorem C4_too_large_is_length_over_50000 dirname req now stamp w :
  let '(w', log, o) := executePython dirname req now stamp w in
  (refused_as o = Some TooLarge
   ↔ (length (recent now (window w (clientIP req))) < 5)%nat
     ∧ ∃ text, code req = Str text ∧ 50000 < Js.length text)
  ∧ (refused_as o = Some TooLarge → log = [] ∧ disk w' = disk w).
Proof.
  destruct (decide (5 ≤ length (recent now (window w (clientIP req))))%nat)
    as [Hfull|Hroom].
  { rewrite executePython_limited by done.
    split; [split|]; [done|intros [? _]; lia|done]. }
  destruct (negb (truthy (code req)) || negb (is_string (code req))) eqn:Hbody.
  { rewrite executePython_invalid by (done || lia).
    split; [split|]; [done| |done].
    intros (_ & text & Hcode & Hlong). rewrite Hcode in Hbody. cbn in Hbody.
    rewrite orb_false_r, negb_involutive in Hbody.
    apply bool_decide_eq_true in Hbody as ->. by cbn in Hlong. }
  destruct (valid_body_text req Hbody) as (text & Hcode & Hsome).
  destruct (decide (50000 < Js.length (show (code req)))) as [Hlong|Hshort].
  { rewrite executePython_too_large by (done || lia).
    split; [split|]; [|done..].
    intros _. split; [lia|]. exists text. by rewrite Hcode in Hlong. }
  destruct (executePython_staged dirname req now stamp w)
    as (w' & log & o & -> & Ho & _); [lia|done|lia|].
  assert (refused_as o ≠ Some TooLarge) as Hnot.
  { destruct Ho as [->|[->|(c & -> & _)]]; done. }
  split; [split|]; [done| |done].
  intros (_ & text' & Hcode' & Hlong). rewrite Hcode' in Hshort.
  by cbn in Hshort.
Qed.

Lemma executePython_started dirname req now stamp w :
  valid req = true →
  refused w = ∅ →
  (length (recent now (window w (clientIP req))) < 5)%nat →
  ∃ w' log c,
    executePython dirname req now stamp w = (w', log, Started c)
    ∧ Spawn "python3" [tempFile c] ∈ log
    ∧ refused w' = ∅
    ∧ (∀ client, window w' client = window (recorded req now w) client).
Proof.
  intros Hvalid Hnone Hroom. unfold valid in Hvalid.
  apply andb_prop in Hvalid as [[Htruthy Hstring]%andb_prop Hshort].
  destruct (executePython_staged dirname req now stamp w)
    as (w' & log & o & Hstep & Ho & Hstarted); [done| | |].
  { by rewrite Htruthy, Hstring. }
  { apply negb_true_iff, Z.ltb_ge in Hshort. lia. }
  destruct (Hstarted Hnone) as [c ->].
  destruct Ho as [?|[?|(c' & [= <-] & Hspawn & Href & Hcount)]]; [done..|].
  exists w', log, c. repeat split; [done..|by apply Href|].
  intros client. unfold window. by rewrite Hcount.
Qed.

Lemma window_recorded req now w :
  window (recorded req now w) (clientIP req)
  = recent now (window w (clientIP req)) ++ [now].
Proof. unfold recorded, window at 1. cbn. by rewrite lookup_insert_eq. Qed.

Lemma serve_cons dirname req now stamp reqs w :
  serve dirname ((req, now, stamp) :: reqs) w
  = let '(w', _, o) := executePython dirname req now stamp w in
    let '(w'', outcomes) := serve dirname reqs w' in
    (w'', o :: outcomes).
Proof. reflexivity. Qed.

(** A burst: requests of one client, all valid, at times within 60 seconds
    from [lo], served while the list of the client has room for them.  Each
    is run, and its time is appended to the list. *)
Lemma serve_burst dirname R lo reqs w :
  Forall (λ x : request * Z * Z,
            clientIP x.1.1 = R ∧ valid x.1.1 = true
            ∧ lo ≤ x.1.2 ∧ x.1.2 - lo < 60000) reqs →
  refused w = ∅ →
  Forall (λ t, lo ≤ t) (window w R) →
  (length (window w R) + length reqs ≤ 5)%nat →
  let '(w', outcomes) := serve dirname reqs w in
  Forall (λ o, ∃ c, o = Started c) outcomes
  ∧ length outcomes = length reqs
  ∧ window w' R = window w R ++ ((λ x : request * Z * Z, x.1.2) <$> reqs)
  ∧ refused w' = ∅.
Proof.
  intros Hreqs. revert w.
  induction Hreqs as [|[[req now] stamp] reqs (HR & Hvalid & Hlo & Hhi) _ IH];
    intros w Hnone Hold Hroom.
  { cbn. by rewrite app_nil_r. }
  cbn in HR, Hvalid, Hlo, Hhi. cbn [serve].
  assert (recent now (window w R) = window w R) as Hkeep.
  { apply recent_all. eapply Forall_impl; [done|]. cbn. lia. }
  destruct (executePython_started dirname req now stamp w)
    as (w1 & log1 & c1 & -> & _ & Hnone1 & Hwin1); [done..| |].
  { rewrite HR, Hkeep. cbn in Hroom. lia. }
  specialize (Hwin1 R). rewrite <- HR, window_recorded, HR, Hkeep in Hwin1.
  specialize (IH w1 Hnone1). rewrite Hwin1 in IH.
  destruct (serve dirname reqs w1) as [w' outcomes].
  destruct IH as (Hrun & Hlen & Hwin & Hnone').
  { apply Forall_app. split; [done|]. by repeat constructor. }
  { rewrite length_app. cbn in *. lia. }
  split; [constructor; [by eexists|done]|]. split; [cbn; by rewrite Hlen|].
  split; [|done]. rewrite Hwin, <- app_assoc. done.
Qed.

(** C5. A client with nothing on its list for the last 60 seconds makes five
    valid requests, at times [t1] to [t5] less than 60 seconds apart, and
    each is run.  A sixth request of that client at
    any later time still in those 60 seconds is answered 429, leaves the
    state as it was and does nothing on the host; a valid request of that
    client 61 seconds after the first is run, and its process is spawned. *)
Theorem C5_sixth_refused_then_admitted_after_61s
    dirname R r1 r2 r3 r4 r5 r6 r7 t1 t2 t3 t4 t5 t6 s6 s7 w0 :
  Forall (λ r, clientIP r = R ∧ valid r = true) [r1; r2; r3; r4; r5; r7] →
  clientIP r6 = R →
  recent t1 (window w0 R) = [] →
  refused w0 = ∅ →
  t1 ≤ t2 ∧ t2 ≤ t3 ∧ t3 ≤ t4 ∧ t4 ≤ t5 ∧ t5 ≤ t6 →
  t6 - t1 < 60000 →
  let '(w5, outcomes) :=
    serve dirname
      [(r1, t1, t1); (r2, t2, t2); (r3, t3, t3); (r4, t4, t4); (r5, t5, t5)]
      w0 in
  Forall (λ o, ∃ c, o = Started c) outcomes
  ∧ length outcomes = 5%nat
  ∧ executePython dirname r6 t6 s6 w5 = (w5, [], Replied too_many)
  ∧ refused_as (Replied too_many) = Some RateLimited
  ∧ ∃ w7 log c,
      executePython dirname r7 (t1 + 61000) s7 w5 = (w7, log, Started c)
      ∧ Spawn "python3" [tempFile c] ∈ log.
Proof.
  intros Hreqs E6 Hnew Hnone Horder Hspan.
  rewrite !Forall_cons in Hreqs.
  destruct Hreqs as ((E1 & V1) & (E2 & V2) & (E3 & V3) & (E4 & V4) & (E5 & V5)
                     & (E7 & V7) & _).
  rewrite serve_cons.
  destruct (executePython_started dirname r1 t1 t1 w0)
    as (w1 & log1 & c1 & -> & _ & Hnone1 & Hwin1); [done..| |].
  { rewrite E1, Hnew. cbn. lia. }
  specialize (Hwin1 R). rewrite <- E1, window_recorded, E1, Hnew in Hwin1.
  cbn in Hwin1.
  pose proof (serve_burst dirname R t1
                [(r2, t2, t2); (r3, t3, t3); (r4, t4, t4); (r5, t5, t5)] w1)
    as Hburst.
  rewrite Hwin1 in Hburst.
  destruct (serve dirname _ w1) as [w5 outcomes].
  destruct Hburst as (Hrun & Hlen & Hwin & Hnone5).
  { repeat constructor; cbn; (done || lia). }
  { done. }
  { by repeat constructor. }
  { cbn. lia. }
  cbn in Hwin.
  split; [constructor; [by eexists|done]|]. split; [cbn; by rewrite Hlen|].
  split; [|split; [done|]].
  - apply executePython_limited.
    rewrite E6, Hwin, recent_all by (repeat constructor; lia). done.
  - destruct (executePython_started dirname r7 (t1 + 61000) s7 w5)
      as (w7 & log7 & c7 & -> & Hspawn & _); [done..| |by eauto].
    rewrite E7, Hwin. unfold recent. rewrite filter_cons_False by lia.
    eapply Nat.le_lt_trans; [apply length_filter|]. cbn. lia.
Qed.

(** What the [try]/[catch] around [unlinkSync] guarantees. *)
Lemma cleanup_facts c w message :
  let '(w', log) := cleanup message c w in
  UnlinkSync (tempFile c) ∈ log
  ∧ (tempFile c ∈ refused w ∨ tempFile c ∉ disk w')
  ∧ (unlinkSync (tempFile c) w = None →
     ∃ message, Warn message (tempFile c) ∈ log).
Proof.
  unfold cleanup.
  destruct (unlinkSync (tempFile c) w) as [w1|] eqn:Hunlink.
  - split; [by left|]. split; [|done]. right.
    unfold unlinkSync in Hunlink.
    destruct (_ && _); [|done]. injection Hunlink as <-. cbn.
    apply not_elem_of_difference. right. by apply elem_of_singleton.
  - split; [by left|]. split; [|intros _; exists message; by right; left].
    unfold unlinkSync in Hunlink.
    destruct (bool_decide (tempFile c ∈ disk w)) eqn:Hdisk;
      destruct (bool_decide (tempFile c ∈ refused w)) eqn:Href;
      try done.
    + left. by apply bool_decide_eq_true in Href.
    + left. by apply bool_decide_eq_true in Href.
    + right. by apply bool_decide_eq_false in Hdisk.
Qed.

(** C6. Whatever ends the child, the handler of that event calls
    [unlinkSync] on the scratch file, and the file is then gone from the disk
    unless the host refused the removal; a removal that throws is caught and
    leaves a warning; and the reply is the same whatever the state of the
    host, so also when the removal fails. *)
Theorem C6_scratch_file_removed_on_every_termination ev c w :
  final ev = true →
  let '(w', log, _, reply) := on_event ev c w in
  UnlinkSync (tempFile c) ∈ log
  ∧ (tempFile c ∈ refused w ∨ tempFile c ∉ disk w')
  ∧ (unlinkSync (tempFile c) w = None →
     ∃ message, Warn message (tempFile c) ∈ log)
  ∧ is_Some reply
  ∧ ∀ w2, (on_event ev c w2).2 = reply.
Proof.
  intros Hfinal. pose proof (cleanup_facts c w) as Hclean.
  destruct ev as [data|data|code|code message]; try done; cbn [on_event].
  - specialize (Hclean "Failed to clean up temp file:").
    destruct (cleanup _ c w) as [w' log].
    destruct Hclean as (? & ? & ?). repeat split; [done..|by eexists|].
    intros w2. by destruct (cleanup _ c w2).
  - specialize (Hclean "Failed to clean up temp file after error:").
    destruct (cleanup _ c w) as [w' log].
    destruct Hclean as (? & ? & ?). repeat split; [done..|by eexists|].
    intros w2. by destruct (cleanup _ c w2).
Qed.


End ExecFacts.

Example execute_hello :
  let req := {| Exec.ip := "10.0.0.7"; Exec.remoteAddress := "";
                Exec.code := Exec.Str "print(1)";
                Exec.filename := Exec.Str "hello" |} in
  let '(w, log, o) := Exec.executePython "/srv/app" req 1000 1001 Exec.fresh in
  o = Exec.Started {| Exec.tempFile := "/srv/app/temp/hello_1001.py";
                      Exec.captured_output := "";
                      Exec.captured_error := "" |}
  ∧ log = [Exec.MkdirSync "/srv/app/temp";
           Exec.WriteFileSync "/srv/app/temp/hello_1001.py" "print(1)";
           Exec.Spawn "python3" ["/srv/app/temp/hello_1001.py"]]
  ∧ Exec.window w "10.0.0.7" = [1000].
Proof. by vm_compute. Qed.

(** C2, as it is stated, fails: a request with an empty body is refused as
    invalid, and its time has been put on the list of its client. *)
Lemma C2_refused_request_is_recorded :
  let req := {| Exec.ip := "10.0.0.7"; Exec.remoteAddress := "";
                Exec.code := Exec.Str ""; Exec.filename := Exec.Undefined |} in
  let '(w, log, o) := Exec.executePython "/srv/app" req 1000 1000 Exec.fresh in
  Exec.refused_as o = Some Exec.InvalidInput
  ∧ Exec.window Exec.fresh "10.0.0.7" = []
  ∧ Exec.window w "10.0.0.7" = [1000].
Proof. by vm_compute. Qed.

(** C4, as it is stated, fails in both directions: 50001 one-byte
    characters are under 50 KiB and are refused as too large; 25600 two-byte
    characters and a one-byte one are 50 KiB + 1 byte and are not refused. *)
Lemma C4_size_is_not_counted_in_bytes :
  let small := Js.repeat "a" (Z.to_nat 50001) in
  let large := Js.repeat (ascii_of_N 233) (Z.to_nat 25600) +:+ "a" in
  let req text := {| Exec.ip := "10.0.0.7"; Exec.remoteAddress := "";
                     Exec.code := Exec.Str text;
                     Exec.filename := Exec.Str "demo" |} in
  (Js.byteLength small ≤ 51200
   ∧ Exec.refused_as
       (Exec.executePython "/srv/app" (req small) 1000 1000 Exec.fresh).2
     = Some Exec.TooLarge)
  ∧ (Js.byteLength large = 51200 + 1
     ∧ Exec.refused_as
         (Exec.executePython "/srv/app" (req large) 1000 1000 Exec.fresh).2
       = None).
Proof. by vm_compute. Qed.

Lemma C4_witness :
  let text := Js.repeat "a" (Z.to_nat 51201) in
  let req := {| Exec.ip := "10.0.0.7"; Exec.remoteAddress := "";
                Exec.code := Exec.Str text;
                Exec.filename := Exec.Str "demo" |} in
  let '(w', log, o) := Exec.executePython "/srv/app" req 1000 1000 Exec.fresh in
  Exec.refused_as o = Some Exec.TooLarge ∧ log = [] ∧ Exec.disk w' = ∅.
Proof.
  intros text req.
  pose proof (C4_too_large_is_length_over_50000 "/srv/app" req 1000 1000
                Exec.fresh) as Hthm.
  destruct (Exec.executePython "/srv/app" req 1000 1000 Exec.fresh)
    as [[w' log] o].
  destruct Hthm as [Hiff Hlog].
  assert (Exec.refused_as o = Some Exec.TooLarge) as Hrefused.
  { apply Hiff. split; [vm_compute; lia|].
    exists text. split; [reflexivity|]. by vm_compute. }
  split; [done|]. apply Hlog, Hrefused.
Defined.

Lemma C5_witness :
  let req := {| Exec.ip := "10.0.0.7"; Exec.remoteAddress := "";
                Exec.code := Exec.Str "print(1)";
                Exec.filename := Exec.Str "demo" |} in
  let '(w5, outcomes) :=
    Exec.serve "/srv/app"
      [(req, 0, 0); (req, 1000, 1000); (req, 2000, 2000); (req, 3000, 3000);
       (req, 4000, 4000)]
      Exec.fresh in
  Forall (λ o, ∃ c, o = Exec.Started c) outcomes
  ∧ length outcomes = 5%nat
  ∧ Exec.executePython "/srv/app" req 59000 59000 w5
    = (w5, [], Exec.Replied Exec.too_many)
  ∧ Exec.refused_as (Exec.Replied Exec.too_many) = Some Exec.RateLimited
  ∧ ∃ w7 log c,
      Exec.executePython "/srv/app" req (0 + 61000) 61000 w5
      = (w7, log, Exec.Started c)
      ∧ Exec.Spawn "python3" [Exec.tempFile c] ∈ log.
Proof.
  intros req.
  apply (C5_sixth_refused_then_admitted_after_61s
           "/srv/app" "10.0.0.7" req req req req req req req
           0 1000 2000 3000 4000 59000 59000 61000 Exec.fresh).
  - repeat constructor.
  - reflexivity.
  - by vm_compute.
  - reflexivity.
  - lia.
  - lia.
Defined.

Lemma C6_witness :
  let c := {| Exec.tempFile := "/srv/app/temp/demo_1000.py";
              Exec.captured_output := "1";
              Exec.captured_error := "" |} in
  let w := {| Exec.pythonExecutionCount := ∅;
              Exec.disk := {["/srv/app/temp/demo_1000.py"]};
              Exec.refused := ∅ |} in
  Exec.final (Exec.Close (Some 0)) = true
  ∧ let '(w', log, _, reply) := Exec.on_event (Exec.Close (Some 0)) c w in
    Exec.UnlinkSync (Exec.tempFile c) ∈ log
    ∧ (Exec.tempFile c ∈ Exec.refused w ∨ Exec.tempFile c ∉ Exec.disk w')
    ∧ (Exec.unlinkSync (Exec.tempFile c) w = None →
       ∃ message, Exec.Warn message (Exec.tempFile c) ∈ log)
    ∧ is_Some reply
    ∧ ∀ w2, (Exec.on_event (Exec.Close (Some 0)) c w2).2 = reply.
Proof.
  intros c w. split; [reflexivity|].
  apply (C6_scratch_file_removed_on_every_termination
           (Exec.Close (Some 0)) c w).
  reflexivity.
Defined.


(** ** The change watcher *)

(** C1.  The [fileChange] object has a field [path] that is the path the
    watcher was given, unchanged; when the watched directory is absolute, as
    it is by default, that is the absolute path of the file on the host.
    Its [relativePath] is the path relative to the watched directory. *)
Theorem C1_change_payload_carries_the_absolute_path
    localeCompare watchDir h ev filePath :
  Path.isAbsolute filePath = true →
  ∃ p tree,
    Watch.handleFileChange localeCompare watchDir h ev filePath
    = [Watch.FileChange p; Watch.FileTree tree]
    ∧ Watch.relativePath p = Path.relative (Watch.cwd h) watchDir filePath
    ∧ Watch.path p = filePath
    ∧ Path.isAbsolute (Watch.path p) = true.
Proof. intros Habs. by eexists _, _. Qed.

Lemma C1_witness :
  let h := {| Watch.cwd := "/home/ana";
              Watch.texts := {["/home/ana/site/css/main.css" := "body{}"]};
              Watch.root := Snapshot.Dir true
                              [("css", Snapshot.Dir true
                                         [("main.css", Snapshot.File 6)])] |} in
  Path.isAbsolute "/home/ana/site/css/main.css" = true
  ∧ ∃ p tree,
      Watch.handleFileChange Snapshot.codeUnitCompare "/home/ana/site" h
        Watch.change "/home/ana/site/css/main.css"
      = [Watch.FileChange p; Watch.FileTree tree]
      ∧ Watch.relativePath p = "css/main.css"
      ∧ Watch.path p = "/home/ana/site/css/main.css"
      ∧ Path.isAbsolute (Watch.path p) = true.
Proof.
  intros h. split; [reflexivity|].
  destruct (C1_change_payload_carries_the_absolute_path
              Snapshot.codeUnitCompare "/home/ana/site" h Watch.change
              "/home/ana/site/css/main.css" eq_refl)
    as (p & tree & Hemit & Hrel & Hpath & Habs).
  exists p, tree. split; [done|]. split; [|done].
  rewrite Hrel. reflexivity.
Defined.

(** ** The file route *)
Section ReadFileFacts.
Import Js Path.

Lemma chars_app a b : chars (a +:+ b) = chars a ++ chars b.
Proof.
  induction a as [|c a IH]; [done|].
  change (String c a +:+ b) with (String c (a +:+ b)). cbn. by rewrite IH.
Qed.

Lemma take_while_app p l c r :
  Forall (λ x, p x = true) l → p c = false →
  take_while p (l ++ c :: r) = l.
Proof.
  intros Hl Hc. induction Hl as [|x l Hx _ IH]; cbn; [by rewrite Hc|].
  by rewrite Hx, IH.
Qed.

Lemma drop_while_head p l :
  match l with c :: _ => p c = false | [] => True end →
  drop_while p l = l.
Proof. destruct l as [|c l]; [done|]. cbn. by intros ->. Qed.

(** The last component of a path is what follows its last separator. *)
Lemma basename_last_component dir name :
  name ≠ "" → slash ∉ chars name →
  basename (dir +:+ "/" +:+ name) = name.
Proof.
  intros Hsome Hclean. unfold basename.
  rewrite !chars_app. change (chars "/") with [slash].
  rewrite rev_app_distr, rev_app_distr. cbn [rev app].
  rewrite <- app_assoc. cbn [app].
  assert (Forall (λ x, negb (is_slash x) = true) (rev (chars name))) as Hrev.
  { apply Forall_forall. intros x Hx%list_elem_of_In%in_rev%list_elem_of_In.
    apply negb_true_iff, bool_decide_eq_false. by intros ->. }
  rewrite drop_while_head.
  - rewrite take_while_app;
      [|done|by unfold is_slash; rewrite bool_decide_eq_true_2].
    by rewrite rev_involutive, String.string_of_list_ascii_of_string.
  - destruct (rev (chars name)) as [|c l] eqn:Hl.
    + apply (f_equal (@rev _)) in Hl. rewrite rev_involutive in Hl. cbn in Hl.
      apply (f_equal str) in Hl.
      by rewrite String.string_of_list_ascii_of_string in Hl.
    + apply Forall_cons in Hrev as [Hc _]. by apply negb_true_iff in Hc.
Qed.

(** C10.  The hidden-file test of the file route looks at the last component
    of the requested path only.  When that component does not begin with a
    dot the request is not answered with the hidden-file refusal, whatever
    the directories above it are called; when it begins with a dot and does
    not end in [.html] the request is answered 403 with that refusal, before
    any call to [fs]. *)
Theorem C10_hidden_check_reads_the_last_component
    watchDir files requestedPath :
  let filename := basename requestedPath in
  let '(calls, reply) := ReadFile.getFile watchDir files requestedPath in
  (startsWith filename "." = false → reply ≠ ReadFile.hidden_denied)
  ∧ (startsWith filename "." = true → endsWith filename ".html" = false →
     reply = ReadFile.hidden_denied ∧ calls = [])
  ∧ (∀ dir name,
       name ≠ "" → slash ∉ chars name →
       requestedPath = dir +:+ "/" +:+ name → filename = name).
Proof.
  intros filename.
  assert (∀ dir name,
            name ≠ "" → slash ∉ chars name →
            requestedPath = dir +:+ "/" +:+ name → filename = name) as Hlast.
  { intros dir name ? ? ->. by apply basename_last_component. }
  unfold ReadFile.getFile. fold filename.
  destruct (ReadFile.hidden filename) eqn:Hhidden.
  - split; [|done]. intros Hdot. unfold ReadFile.hidden in Hhidden.
    by rewrite Hdot in Hhidden.
  - unfold ReadFile.hidden in Hhidden.
    destruct (negb _ && negb _);
      [|destruct (files !! _) as [[content|]|]];
      cbv beta iota zeta; (split; [done|]);
      (split; [|done]); intros Hdot Hhtml; by rewrite Hdot, Hhtml in Hhidden.
Qed.

End ReadFileFacts.

Lemma C10_witness :
  let files : gmap string (option string) :=
    {["/home/ana/site/.ssh/config" := Some "Host *"]} in
  (Js.startsWith (Path.basename ".ssh/config") "." = false
   ∧ ReadFile.getFile "/home/ana/site" files ".ssh/config"
     = ([ReadFile.ExistsSync "/home/ana/site/.ssh/config";
         ReadFile.ReadFileSync "/home/ana/site/.ssh/config"],
        ReadFile.Content "Host *" "" "config" ".ssh/config")
   ∧ (ReadFile.getFile "/home/ana/site" files ".ssh/config").2
     ≠ ReadFile.hidden_denied)
  ∧ (Js.startsWith (Path.basename "site/.env") "." = true
     ∧ Js.endsWith (Path.basename "site/.env") ".html" = false
     ∧ ReadFile.getFile "/home/ana/site" files "site/.env"
       = ([], ReadFile.hidden_denied)).
Proof.
  intros files. split.
  - pose proof (C10_hidden_check_reads_the_last_component
                  "/home/ana/site" files ".ssh/config") as Hthm.
    cbv zeta in Hthm.
    destruct (ReadFile.getFile "/home/ana/site" files ".ssh/config")
      as [calls reply] eqn:Hget.
    destruct Hthm as (Hpass & _ & _).
    split; [reflexivity|]. split; [|by apply Hpass].
    rewrite <- Hget. by vm_compute.
  - pose proof (C10_hidden_check_reads_the_last_component
                  "/home/ana/site" files "site/.env") as Hthm.
    cbv zeta in Hthm.
    destruct (ReadFile.getFile "/home/ana/site" files "site/.env")
      as [calls reply].
    destruct Hthm as (_ & Hdeny & _).
    split; [reflexivity|]. split; [reflexivity|].
    by destruct (Hdeny eq_refl eq_refl) as [-> ->].
Defined.

(** ** More on the execution route *)
Section RateFacts.
Import Exec Runs.

Lemma times_of_app client l1 l2 :
  times_of client (l1 ++ l2) = times_of client l1 ++ times_of client l2.
Proof. unfold times_of. by rewrite filter_app, fmap_app. Qed.

Lemma within_limit_snoc h now :
  within_limit h →
  (length (filter (λ t, (now - t < 60000)%Z) (h ++ [now])) ≤ 5)%nat →
  within_limit (h ++ [now]).
Proof.
  intros Hh Hlast h1 T h2 Heq.
  destruct h2 as [|x h2 _] using rev_ind.
  - apply app_inj_tail in Heq as [<- <-]. done.
  - rewrite app_comm_cons, app_assoc in Heq.
    apply app_inj_tail in Heq as [-> _]. by eapply Hh.
Qed.

(** The list of a client is its history seen from the last counted time,
    as long as the clock does not go back. *)
Lemma counted_within_limit dirname client reqs :
  ∀ w h lo T,
    StronglySorted Z.le (clock reqs) →
    Forall (λ t, lo ≤ t) (clock reqs) →
    T ≤ lo →
    window w client = filter (λ t, T - t < 60000) h →
    within_limit h →
    within_limit (h ++ times_of client (counted dirname reqs w)).
Proof.
  induction reqs as [|[[req now] stamp] reqs IH];
    intros w h lo T Hsorted Hlo HT Hwin Hh.
  { cbn. by rewrite app_nil_r. }
  cbn [clock fmap list_fmap] in Hsorted, Hlo. cbn in Hsorted, Hlo.
  apply StronglySorted_inv in Hsorted as [Hsorted Hnext].
  apply Forall_cons in Hlo as [Hnow _].
  cbn [counted].
  pose proof (executePython_window dirname req now stamp w client) as Hstep.
  destruct (executePython dirname req now stamp w) as [[w' log] o].
  rewrite times_of_app.
  destruct Hstep as [[Hsame Hmine]|(-> & Ho & Hroom & Hnew)].
  - assert (times_of client
              (if bool_decide (o = Replied too_many) then []
               else [(clientIP req, now)]) = []) as ->.
    { case_bool_decide as Ho; [done|]. unfold times_of.
      rewrite filter_cons_False; [done|]. cbn. intros <-. by apply Ho, Hmine. }
    cbn [app]. apply (IH w' h now T); [done..|lia| |done].
    by rewrite Hsame.
  - rewrite bool_decide_eq_false_2 by done.
    assert (times_of (clientIP req) [(clientIP req, now)] = [now]) as ->.
    { unfold times_of. by rewrite filter_cons_True. }
    assert (window w' (clientIP req)
            = filter (λ t, now - t < 60000) (h ++ [now])) as Hwin'.
    { rewrite Hnew, Hwin. unfold recent.
      rewrite list_filter_filter, filter_app.
      rewrite (filter_cons_True _ now) by lia. f_equal.
      apply list_filter_iff. intros t. lia. }
    rewrite app_assoc. apply (IH w' (h ++ [now]) now now); [done..|lia|done|].
    apply within_limit_snoc; [done|].
    rewrite <- Hwin', Hnew, length_app. cbn. lia.
Qed.

(** X1.  The rate limit, over any run served from a fresh table with a clock
    that does not go back: for every request of a client that went past the
    rate check, at time [T], the requests of that client that went past it
    up to then and less than 60 seconds before [T] are at most 5, that one
    included. *)
Theorem rate_limit_holds_in_every_window dirname reqs client h T rest :
  StronglySorted Z.le (clock reqs) →
  times_of client (counted dirname reqs fresh) = h ++ T :: rest →
  (length (filter (λ t, (T - t < 60000)%Z) (h ++ [T])) ≤ 5)%nat.
Proof.
  intros Hsorted Hhist.
  assert (within_limit (times_of client (counted dirname reqs fresh))) as Hall.
  { destruct reqs as [|[[req now] stamp] reqs]; [by intros [] ? []|].
    apply (counted_within_limit dirname client _ fresh [] now now);
      [done| |done| |by intros [] ? []].
    - cbn. constructor; [done|].
      cbn in Hsorted. by apply StronglySorted_inv in Hsorted as [_ ?].
    - by rewrite window_fresh. }
  by eapply Hall.
Qed.

(** X2.  A run of requests of other clients leaves the list of a client as
    it was: no client can use up the allowance of another. *)
Theorem other_clients_leave_the_list_alone dirname reqs client w :
  Forall (λ x : request * Z * Z, clientIP x.1.1 ≠ client) reqs →
  window (serve dirname reqs w).1 client = window w client.
Proof.
  revert w. induction reqs as [|[[req now] stamp] reqs IH]; intros w Hothers;
    [done|].
  apply Forall_cons in Hothers as [Hother Hothers]. cbn in Hother.
  rewrite serve_cons.
  pose proof (executePython_window dirname req now stamp w client) as Hstep.
  destruct (executePython dirname req now stamp w) as [[w' log] o].
  specialize (IH w' Hothers). destruct (serve dirname reqs w') as [w'' os].
  cbn in *. rewrite IH. by destruct Hstep as [[-> _]|[-> _]].
Qed.

(** X3.  Once the entries of a client are all 60 seconds old or more, its
    next request is not refused by the rate check, whatever their number,
    and the list is started again with the time of that request alone. *)
Theorem old_entries_are_forgotten dirname req now stamp w :
  Forall (λ time, 60000 ≤ now - time) (window w (clientIP req)) →
  let '(w', log, o) := executePython dirname req now stamp w in
  o ≠ Replied too_many ∧ window w' (clientIP req) = [now].
Proof.
  intros Hold.
  assert (recent now (window w (clientIP req)) = []) as Hnone.
  { unfold recent. induction Hold as [|t l Ht _ IH]; [done|].
    by rewrite filter_cons_False by lia. }
  destruct (executePython_recorded dirname req now stamp w)
    as (w' & log & o & -> & Ho & Hcount & _).
  { rewrite Hnone. cbn. lia. }
  split; [done|]. unfold window at 1.
  by rewrite Hcount, lookup_insert_eq, Hnone.
Qed.

End RateFacts.

Section HandlerFacts.
Import Exec Runs.

Lemma string_app_assoc (a b c : string) : (a +:+ b) +:+ c = a +:+ (b +:+ c).
Proof.
  induction a as [|x a IH]; [done|].
  change (String x a +:+ b) with (String x (a +:+ b)).
  change (String x (a +:+ b) +:+ c) with (String x ((a +:+ b) +:+ c)).
  change (String x a +:+ (b +:+ c)) with (String x (a +:+ (b +:+ c))).
  by rewrite IH.
Qed.

Lemma string_app_nil_r (a : string) : a +:+ "" = a.
Proof.
  induction a as [|x a IH]; [done|].
  change (String x a +:+ "") with (String x (a +:+ "")). by rewrite IH.
Qed.

(** X4.  A request past the rate check is refused as invalid exactly when
    its code is anything but a non-empty string: absent, [null], a number, a
    boolean, an object or the empty string.  Nothing was written or spawned
    for it and the disk is as it was. *)
Theorem invalid_code_is_refused_untouched dirname req now stamp w :
  let '(w', log, o) := executePython dirname req now stamp w in
  (refused_as o = Some InvalidInput
   ↔ (length (recent now (window w (clientIP req))) < 5)%nat
     ∧ ¬ ∃ text, code req = Str text ∧ text ≠ "")
  ∧ (refused_as o = Some InvalidInput → log = [] ∧ disk w' = disk w).
Proof.
  destruct (decide (5 ≤ length (recent now (window w (clientIP req))))%nat)
    as [Hfull|Hroom].
  { rewrite executePython_limited by done.
    split; [split|]; [done|intros [? _]; lia|done]. }
  destruct (negb (truthy (code req)) || negb (is_string (code req))) eqn:Hbody.
  { rewrite executePython_invalid by (done || lia).
    split; [split|]; [|done..].
    intros _. split; [lia|]. intros (text & Hcode & Hsome).
    rewrite Hcode in Hbody. cbn in Hbody.
    rewrite orb_false_r, negb_involutive in Hbody.
    by apply bool_decide_eq_true in Hbody. }
  destruct (valid_body_text req Hbody) as (text & Hcode & Hsome).
  destruct (decide (50000 < Js.length (show (code req)))) as [Hlong|Hshort].
  { rewrite executePython_too_large by (done || lia).
    split; [split|]; [done| |done]. intros [_ Hnot]. destruct Hnot. eauto. }
  destruct (executePython_staged dirname req now stamp w)
    as (w' & log & o & -> & Ho & _); [lia|done|lia|].
  assert (refused_as o ≠ Some InvalidInput) as Hnot.
  { destruct Ho as [->|[->|(c & -> & _)]]; done. }
  split; [split|]; [done| |done]. intros [_ Hno]. destruct Hno. eauto.
Qed.

(** X5.  A process is spawned only by a request that is past the rate check
    with a valid body, and only as the last thing the handler does, right
    after the code of the request has been written to the scratch file the
    process is given; that file is then on the disk, and nothing has been
    captured yet.  A request that is answered at once spawns nothing. *)
Theorem spawn_follows_the_staged_code dirname req now stamp w :
  let '(w', log, o) := executePython dirname req now stamp w in
  match o with
  | Started c =>
      valid req = true
      ∧ (length (recent now (window w (clientIP req))) < 5)%nat
      ∧ tempFile c = scratch dirname req stamp
      ∧ tempFile c ∈ disk w'
      ∧ captured_output c = "" ∧ captured_error c = ""
      ∧ ∃ before,
          log = before ++ [WriteFileSync (tempFile c) (show (code req));
                           Spawn "python3" [tempFile c]]
          ∧ ∀ command args, Spawn command args ∉ before
  | _ => ∀ command args, Spawn command args ∉ log
  end.
Proof.
  unfold executePython. fold (window w (clientIP req)).
  fold (scratch dirname req stamp).
  case_bool_decide as Hfull; [by intros ?? ?%elem_of_nil|].
  destruct (negb (truthy (code req)) || negb (is_string (code req))) eqn:Hbody;
    [by intros ?? ?%elem_of_nil|].
  destruct (50000 <? Js.length (show (code req))) eqn:Hlong;
    [by intros ?? ?%elem_of_nil|].
  assert (valid req = true) as Hvalid.
  { unfold valid. rewrite Hlong. apply orb_false_elim in Hbody as [??].
    by repeat (apply andb_true_intro; split); try apply negb_false_iff. }
  set (made := if bool_decide (_ ∈ disk _) then _ else _).
  assert (match made with
          | Some (w1, before) =>
              ∀ command args, Spawn command args ∉ before
          | None => True
          end) as Hmade.
  { subst made. case_bool_decide; [by intros ?? ?%elem_of_nil|].
    unfold mkdirSync. case_bool_decide; cbn; [done|].
    intros ?? [=]%list_elem_of_singleton. }
  destruct made as [[w1 before]|].
  - unfold writeFileSync. case_bool_decide; cbn.
    + intros ?? [?|[=]%list_elem_of_singleton]%elem_of_app. by eapply Hmade.
    + repeat split; [done|lia| |by eexists].
      apply elem_of_union_l. by apply elem_of_singleton.
  - by intros ?? [=]%list_elem_of_singleton.
Qed.

(** X6.  When the host refuses the scratch file (but not its directory), a
    valid request past the rate check is answered 500 and spawns nothing;
    its time has been put on the list of its client all the same. *)
Theorem refused_scratch_file_is_answered_500 dirname req now stamp w :
  valid req = true →
  (length (recent now (window w (clientIP req))) < 5)%nat →
  scratch dirname req stamp ∈ refused w →
  Path.dirname (scratch dirname req stamp) ∉ refused w →
  let '(w', log, o) := executePython dirname req now stamp w in
  o = Replied no_temp_file
  ∧ refused_as o = Some StagingError
  ∧ (∀ command args, Spawn command args ∉ log)
  ∧ window w' (clientIP req)
    = recent now (window w (clientIP req)) ++ [now].
Proof.
  intros Hvalid Hroom Hfile Hdir. unfold valid in Hvalid.
  apply andb_prop in Hvalid as [[Htruthy Hstring]%andb_prop Hshort].
  unfold executePython. fold (window w (clientIP req)).
  fold (scratch dirname req stamp). fold (recorded req now w).
  rewrite bool_decide_eq_false_2 by lia.
  rewrite Htruthy, Hstring. cbn [negb orb].
  apply negb_true_iff in Hshort. rewrite Hshort.
  assert (bool_decide (scratch dirname req stamp ∈ refused w) = true) as Hno
    by (by apply bool_decide_eq_true).
  assert (bool_decide (Path.dirname (scratch dirname req stamp) ∈ refused w)
          = false) as Hok by (by apply bool_decide_eq_false).
  unfold writeFileSync, mkdirSync.
  change (refused (recorded req now w)) with (refused w).
  change (disk (recorded req now w)) with (disk w).
  rewrite Hok. cbn [fmap option_fmap option_map].
  destruct (bool_decide (Path.dirname (scratch dirname req stamp) ∈ disk w));
    cbv beta iota;
    change (refused (with_disk (recorded req now w) _)) with (refused w);
    change (refused (recorded req now w)) with (refused w);
    rewrite Hno; cbv beta iota.
  - split; [done|]. split; [done|]. split; [|by rewrite window_recorded].
    intros ?? [=]%list_elem_of_singleton.
  - split; [done|]. split; [done|]. split.
    + intros ?? [Hin|Hin]%elem_of_app;
        by apply list_elem_of_singleton in Hin.
    + unfold window at 1. cbn. by rewrite lookup_insert_eq.
Qed.

Lemma deliver_stdout data evs c w :
  deliver (StdoutData data :: evs) c w
  = deliver evs
      {| tempFile := tempFile c;
         captured_output := captured_output c +:+ data;
         captured_error := captured_error c |} w.
Proof. cbn [deliver on_event]. by destruct (deliver evs _ w) as [[[??]?]?]. Qed.

Lemma deliver_stderr data evs c w :
  deliver (StderrData data :: evs) c w
  = deliver evs
      {| tempFile := tempFile c;
         captured_output := captured_output c;
         captured_error := captured_error c +:+ data |} w.
Proof. cbn [deliver on_event]. by destruct (deliver evs _ w) as [[[??]?]?]. Qed.

(** The data events before the last event only add to what is captured. *)
Lemma deliver_chunks chunks ev c w :
  Forall (λ ev, final ev = false) chunks →
  deliver (chunks ++ [ev]) c w
  = deliver [ev]
      {| tempFile := tempFile c;
         captured_output := captured_output c +:+ stdout_of chunks;
         captured_error := captured_error c +:+ stderr_of chunks |} w.
Proof.
  intros Hchunks. revert c.
  induction Hchunks as [|chunk chunks Hchunk _ IH]; intros c.
  { cbn [app stdout_of stderr_of]. rewrite !string_app_nil_r. by destruct c. }
  destruct chunk as [data|data| |]; try done; cbn [app].
  - rewrite deliver_stdout, IH.
    cbn [tempFile captured_output captured_error stdout_of stderr_of].
    by rewrite string_app_assoc.
  - rewrite deliver_stderr, IH.
    cbn [tempFile captured_output captured_error stdout_of stderr_of].
    by rewrite string_app_assoc.
Qed.

(** X7.  When the child closes, the caller is sent all that the child wrote
    on stdout and all that it wrote on stderr, each in the order written and
    however the two were interleaved; [success] holds exactly for the exit
    code 0, the exit code is passed on ([null] for a child ended by a
    signal), and a failed run is an ordinary reply with status 200. *)
Theorem close_reply_carries_both_streams chunks code c w :
  Forall (λ ev, final ev = false) chunks →
  let reply := (deliver (chunks ++ [Close code]) c w).2 in
  reply
  = Some {| status := 200;
            success := bool_decide (code = Some 0);
            error := captured_error c +:+ stderr_of chunks;
            output := Some (captured_output c +:+ stdout_of chunks);
            exitCode := Some code |}
  ∧ (failureKind <$> reply)
    = Some (if bool_decide (code = Some 0) then None else Some RuntimeError).
Proof.
  intros Hchunks reply. subst reply. rewrite deliver_chunks by done.
  cbn [deliver on_event]. destruct (cleanup _ _ w) as [w' log]. cbn.
  split; [done|]. by case_bool_decide.
Qed.

(** X8.  When the child cannot be run (an [error] event other than the
    timeout), the caller is answered 500 with the message of the error after
    a fixed prefix, the stdout captured so far and the exit code -1; what was
    captured on stderr is not sent. *)
Theorem error_reply_carries_the_message chunks code message c w :
  Forall (λ ev, final ev = false) chunks →
  code ≠ "ETIMEDOUT" →
  let reply := (deliver (chunks ++ [Error code message]) c w).2 in
  reply
  = Some {| status := 500;
            success := false;
            error := "Failed to execute Python script: " +:+ message;
            output := Some (captured_output c +:+ stdout_of chunks);
            exitCode := Some (Some (-1)) |}
  ∧ (failureKind <$> reply) = Some (Some SpawnError).
Proof.
  intros Hchunks Hcode reply. subst reply. rewrite deliver_chunks by done.
  cbn [deliver on_event]. destruct (cleanup _ _ w) as [w' log]. cbn.
  rewrite bool_decide_eq_false_2 by done. split; [done|].
  unfold failureKind. cbn. by rewrite bool_decide_eq_false_2 by (intros [=]).
Qed.

End HandlerFacts.

(** ** Paths made of names *)
Section PathFacts.
Import Js Path Names.

Lemma chars_str l : chars (str l) = l.
Proof. apply String.list_ascii_of_string_of_list_ascii. Qed.

Lemma str_chars s : str (chars s) = s.
Proof. apply String.string_of_list_ascii_of_string. Qed.

Lemma proper_inv seg :
  proper seg = true →
  seg ≠ [] ∧ ¬ (slash ∈ seg) ∧ seg ≠ [dot] ∧ seg ≠ [dot; dot].
Proof.
  unfold proper. rewrite !andb_true_iff, !negb_true_iff, !bool_decide_eq_false.
  intros [[[? Hfree] ?] ?]. repeat split; try done.
  intros Hin%list_elem_of_In. rewrite forallb_forall in Hfree.
  specialize (Hfree _ Hin). unfold is_slash in Hfree.
  by rewrite bool_decide_eq_true_2 in Hfree.
Qed.

Lemma split_no_slash seg : slash ∉ seg → split seg = [seg].
Proof.
  induction seg as [|c seg IH]; [done|].
  intros [Hc Hseg]%not_elem_of_cons. cbn [split]. unfold is_slash.
  rewrite bool_decide_eq_false_2 by done. by rewrite IH.
Qed.

Lemma split_app_slash seg rest :
  slash ∉ seg → split (seg ++ slash :: rest) = seg :: split rest.
Proof.
  induction seg as [|c seg IH].
  { intros _. cbn [app split]. unfold is_slash.
    by rewrite bool_decide_eq_true_2. }
  intros [Hc Hseg]%not_elem_of_cons. cbn [app split]. unfold is_slash.
  rewrite bool_decide_eq_false_2 by done. by rewrite IH.
Qed.

Lemma join_cons seg seg' segs :
  join_segments (seg :: seg' :: segs)
  = seg ++ slash :: join_segments (seg' :: segs).
Proof. reflexivity. Qed.

(** Splitting a path at its separators gives back the segments it was
    joined from. *)
Lemma split_join segs :
  Forall (λ seg, slash ∉ seg) segs → segs ≠ [] →
  split (join_segments segs) = segs.
Proof.
  induction 1 as [|seg segs Hseg Hsegs IH]; [done|]. intros _.
  destruct segs as [|seg' segs].
  - by apply split_no_slash.
  - rewrite join_cons, split_app_slash by done. by rewrite IH.
Qed.

Lemma join_app segs1 segs2 :
  segs1 ≠ [] → segs2 ≠ [] →
  join_segments (segs1 ++ segs2)
  = join_segments segs1 ++ slash :: join_segments segs2.
Proof.
  intros H1 H2. induction segs1 as [|seg segs1 IH]; [done|].
  destruct segs1 as [|seg' segs1].
  - destruct segs2; [done|]. reflexivity.
  - cbn [app]. rewrite !join_cons. cbn [app] in IH. rewrite IH by done.
    by rewrite <- app_assoc.
Qed.

(** Names go through [normalizeString] unchanged. *)
Lemma normalize_segments_names allowAboveRoot names rest acc :
  Forall (λ seg, proper seg = true) names →
  normalize_segments allowAboveRoot acc (names ++ rest)
  = normalize_segments allowAboveRoot (rev names ++ acc) rest.
Proof.
  intros Hnames. revert acc.
  induction Hnames as [|seg names Hseg _ IH]; intros acc; [done|].
  apply proper_inv in Hseg as (? & _ & ? & ?).
  cbn [app normalize_segments].
  rewrite !bool_decide_eq_false_2 by done. cbn [orb].
  rewrite IH. cbn [rev]. by rewrite <- app_assoc.
Qed.

Lemma normalize_segments_all allowAboveRoot names :
  Forall (λ seg, proper seg = true) names →
  normalize_segments allowAboveRoot [] names = names.
Proof.
  intros Hnames.
  rewrite <- (app_nil_r names) at 1.
  rewrite normalize_segments_names by done. cbn.
  by rewrite app_nil_r, rev_involutive.
Qed.

Lemma join_head segs :
  Forall (λ seg, proper seg = true) segs → segs ≠ [] →
  ∃ c l, join_segments segs = c :: l ∧ c ≠ slash.
Proof.
  intros Hsegs Hsome. destruct Hsegs as [|seg segs Hseg _]; [done|].
  apply proper_inv in Hseg as (? & Hfree & _).
  destruct seg as [|c seg]; [done|].
  apply not_elem_of_cons in Hfree as [? _].
  destruct segs; by eexists _, _.
Qed.

Lemma join_last segs :
  Forall (λ seg, proper seg = true) segs → segs ≠ [] →
  ∃ l c, join_segments segs = l ++ [c] ∧ c ≠ slash.
Proof.
  induction 1 as [|seg segs Hseg Hsegs IH]; [done|]. intros _.
  destruct segs as [|seg' segs].
  - apply proper_inv in Hseg as (? & Hfree & _).
    destruct seg as [|c seg _] using rev_ind; [done|].
    exists seg, c. split; [done|]. intros ->. apply Hfree.
    apply elem_of_app. right. by left.
  - destruct IH as (l & c & Heq & Hc); [done|].
    exists (seg ++ slash :: l), c. split; [|done].
    by rewrite join_cons, Heq, <- app_assoc.
Qed.

Lemma chars_rev_app s acc :
  chars (String.rev_app s acc) = rev (chars s) ++ chars acc.
Proof.
  revert acc. induction s as [|c s IH]; intros acc; [done|].
  cbn [String.rev_app String.list_ascii_of_string rev]. rewrite IH.
  cbn. by rewrite <- app_assoc.
Qed.

Lemma endsWith_slash_last s l c :
  chars s = l ++ [c] → c ≠ slash → endsWith s "/" = false.
Proof.
  intros Hs Hc. unfold endsWith, String.rev.
  assert (chars (String.rev_app s "") = c :: rev l) as Hrev.
  { rewrite chars_rev_app, Hs, rev_app_distr. cbn. by rewrite app_nil_r. }
  destruct (String.rev_app s "") as [|c' t]; [done|].
  injection Hrev as -> _.
  cbn -[ascii_dec]. destruct (ascii_dec "/" c) as [Heq|]; [|done].
  exfalso. apply Hc. by rewrite <- Heq.
Qed.

Lemma normalize_unfold p c0 l :
  chars p = c0 :: l →
  normalize p
  = let body :=
      join_segments
        (normalize_segments (negb (is_slash c0)) [] (split (c0 :: l))) in
    match body with
    | [] =>
        if is_slash c0 then "/" else if endsWith p "/" then "./" else "."
    | _ =>
        let body := if endsWith p "/" then body ++ [slash] else body in
        str (if is_slash c0 then slash :: body else body)
    end.
Proof. intros Hp. unfold normalize. by rewrite Hp. Qed.

(** A relative path made of names is in normal form. *)
Lemma normalize_names segs :
  Forall (λ seg, proper seg = true) segs → segs ≠ [] →
  normalize (path_of segs) = path_of segs.
Proof.
  intros Hsegs Hsome.
  destruct (join_head segs Hsegs Hsome) as (c & l & Heq & Hc).
  destruct (join_last segs Hsegs Hsome) as (l' & c' & Heq' & Hc').
  rewrite (normalize_unfold _ c l) by (unfold path_of; by rewrite chars_str).
  rewrite (endsWith_slash_last _ l' c')
    by (done || unfold path_of; by rewrite chars_str).
  rewrite <- Heq, split_join, normalize_segments_all; [|done| |done].
  - unfold is_slash. rewrite bool_decide_eq_false_2 by done.
    cbv zeta. unfold path_of. by rewrite Heq.
  - eapply Forall_impl; [done|]. intros seg Hseg.
    by apply proper_inv in Hseg as (_ & ? & _).
Qed.

(** An absolute path whose segments normalize to [out]. *)
Lemma normalize_absolute segs out :
  Forall (λ seg, slash ∉ seg) segs → segs ≠ [] →
  (∃ l c, join_segments segs = l ++ [c] ∧ c ≠ slash) →
  normalize_segments false [] segs = out →
  join_segments out ≠ [] →
  normalize ("/" +:+ path_of segs) = "/" +:+ path_of out.
Proof.
  intros Hfree Hsome (l & c & Heq & Hc) Hout Hjoin.
  assert (chars ("/" +:+ path_of segs) = slash :: join_segments segs) as Hp.
  { unfold path_of. by rewrite chars_app, chars_str. }
  rewrite (normalize_unfold _ slash (join_segments segs)) by done.
  rewrite (endsWith_slash_last _ (slash :: l) c); [|by rewrite Hp, Heq|done].
  change (is_slash slash) with true. cbn [negb].
  change (split (slash :: join_segments segs))
    with ([] :: split (join_segments segs)).
  rewrite split_join by done.
  cbn [normalize_segments]. rewrite bool_decide_eq_true_2 by done. cbn [orb].
  rewrite Hout. cbv zeta. unfold path_of. by destruct (join_segments out).
Qed.

Lemma path_of_nonempty segs :
  Forall (λ seg, proper seg = true) segs → segs ≠ [] → path_of segs ≠ "".
Proof.
  intros Hsegs Hsome Hnil. destruct (join_head segs Hsegs Hsome) as (c & l & Heq & _).
  apply (f_equal chars) in Hnil. unfold path_of in Hnil.
  rewrite chars_str, Heq in Hnil. done.
Qed.

(** [path.join(prefix, file)] for a prefix made of names, or empty, and a
    name: the name is added below the prefix. *)
Lemma join_below segs file :
  Forall (λ seg, proper seg = true) segs →
  proper_name file = true →
  join [path_of segs; file] = path_of (segs ++ [chars file])
  ∧ below (path_of segs) file = path_of (segs ++ [chars file]).
Proof.
  intros Hsegs Hfile.
  assert (file ≠ "") as Hsome.
  { intros ->. by apply proper_inv in Hfile as (? & _). }
  assert (Forall (λ seg, proper seg = true) (segs ++ [chars file])) as Hall.
  { apply Forall_app. split; [done|]. by constructor. }
  destruct segs as [|seg segs].
  - unfold join, below, path_of. cbn [List.filter join_segments app].
    change (str []) with "". rewrite !bool_decide_eq_true_2 by done.
    cbn [negb]. rewrite bool_decide_eq_false_2 by done. cbn [negb].
    cbn [String.concat]. rewrite str_chars.
    split; [|done].
    pose proof (normalize_names [chars file] Hall) as Hnorm.
    unfold path_of in Hnorm. cbn [join_segments] in Hnorm.
    rewrite str_chars in Hnorm. by apply Hnorm.
  - pose proof (path_of_nonempty (seg :: segs) Hsegs) as Hprefix.
    assert (path_of (seg :: segs) +:+ "/" +:+ file
            = path_of ((seg :: segs) ++ [chars file])) as Heq.
    { unfold path_of. rewrite join_app by done.
      rewrite <- (str_chars (_ +:+ _)). f_equal.
      rewrite !chars_app, chars_str. done. }
    unfold join, below. cbn [List.filter].
    rewrite !bool_decide_eq_false_2 by (done || by apply Hprefix).
    cbn [negb String.concat]. rewrite Heq.
    split; [|done]. by apply normalize_names.
Qed.

End PathFacts.

(** ** More on the snapshot builder *)
Section TreeFacts.
Import Js Path Names Snapshot.

Variable localeCompare : string → string → Z.

Lemma well_named_dir listable entries :
  well_named (Dir listable entries) = true →
  Forall (λ e, proper_name e.1 = true ∧ well_named e.2 = true) entries.
Proof.
  cbn [well_named]. induction entries as [|[file stat] entries IH]; [done|].
  intros [[??]%andb_prop ?]%andb_prop. constructor; [done|by apply IH].
Qed.

Lemma chained_unfold parent it :
  chained parent it
  ↔ path it = below parent (name it)
    ∧ Forall (chained (path it)) (children it).
Proof.
  destruct it as [n p ch|n p e size]; cbn [chained path name children].
  - apply and_iff_compat_l. induction ch as [|x ch IH]; [done|].
    rewrite Forall_cons. by rewrite IH.
  - by rewrite Forall_nil.
Qed.

Lemma tree_chained n :
  ∀ segs,
    Forall (λ seg, proper seg = true) segs →
    well_named n = true →
    Forall (chained (path_of segs))
      (getFileTree localeCompare n (path_of segs)).
Proof.
  induction n as [size|listable entries IH|] using fsnode_ind_entries;
    intros segs Hsegs Hnamed; rewrite getFileTree_unfold, sort_perm;
    [done| |done].
  destruct listable; [|done].
  apply well_named_dir in Hnamed.
  induction entries as [|[file stat] entries IHentries]; [done|].
  apply Forall_cons in IH as [IHstat IH].
  apply Forall_cons in Hnamed as [[Hfile Hstat] Hnamed].
  cbn [fst snd] in *. cbn [loop].
  destruct (skipped file); [by apply IHentries|].
  destruct (join_below segs file Hsegs Hfile) as [Hjoin Hbelow].
  destruct stat as [size|listable entries'|]; [| |done].
  - constructor; [|by apply IHentries].
    apply chained_unfold. cbn [path name children].
    by rewrite Hjoin, Hbelow.
  - constructor; [|by apply IHentries].
    apply chained_unfold. cbn [path name children]. split.
    + by rewrite Hjoin, Hbelow.
    + rewrite Hjoin. apply IHstat; [|done].
      apply Forall_app. split; [done|]. by constructor.
Qed.

(** X9.  In the snapshot of a directory whose names are those the host can
    list, the [path] of every item at the top is its name, and the [path] of
    every item further down is the path of the directory it is in, a
    separator and its name: paths are relative to the root of the snapshot,
    one name for each level. *)
Theorem snapshot_paths_follow_the_names dir :
  well_named dir = true →
  Forall (chained "") (getFileTree localeCompare dir "").
Proof.
  intros Hnamed. by apply (tree_chained dir []).
Qed.

(** X10.  Every item at the top of a snapshot comes from an entry of the
    listing that the loop keeps, with the name of the entry: a file item for
    a file, with its size and its extension in lower case, and a directory
    item for a directory, whose children are the snapshot of that
    directory. *)
Theorem snapshot_items_come_from_entries files prefix it :
  it ∈ getFileTree localeCompare (Dir true files) prefix →
  ∃ file stat,
    (file, stat) ∈ files
    ∧ skipped file = false
    ∧ match stat with
      | File size =>
          it = FileEntry file (Path.join [prefix; file])
                 (toLowerCase (extname file)) size
      | Dir _ _ =>
          it = Directory file (Path.join [prefix; file])
                 (getFileTree localeCompare stat (Path.join [prefix; file]))
      | NoStat => False
      end.
Proof.
  rewrite getFileTree_unfold, elem_of_sort.
  induction files as [|[file stat] files IH]; cbn [loop].
  { by intros ?%elem_of_nil. }
  destruct (skipped file) eqn:Hskip.
  { intros (f & s & ? & ?)%IH. exists f, s. split; [by right|done]. }
  destruct stat as [size|listable entries|].
  - intros [->|Hin]%elem_of_cons.
    + exists file, (File size). split; [by left|done].
    + destruct (IH Hin) as (f & s & ? & ?). exists f, s. split; [by right|done].
  - intros [->|Hin]%elem_of_cons.
    + exists file, (Dir listable entries). split; [by left|done].
    + destruct (IH Hin) as (f & s & ? & ?). exists f, s. split; [by right|done].
  - by intros ?%elem_of_nil.
Qed.

Lemma loop_names prefix files :
  reaches_end files = true →
  name <$> loop localeCompare prefix files
  = filter (λ file, skipped file = false) files.*1.
Proof.
  induction files as [|[file stat] files IH]; [done|].
  cbn [reaches_end forallb fst snd loop fmap list_fmap].
  intros [Hhead Hrest]%andb_prop.
  destruct (skipped file) eqn:Hskip.
  - rewrite filter_cons_False by (by rewrite Hskip). by apply IH.
  - rewrite filter_cons_True by done. cbn in Hhead.
    destruct stat; [| |done]; cbn; by rewrite <- IH.
Qed.

(** X11.  When no kept entry of a directory makes the examination fail, the
    names in its snapshot are the names the loop keeps, each as many times
    as it is listed: nothing is lost, added or repeated by the sort. *)
Theorem snapshot_names_are_the_kept_names files prefix :
  reaches_end files = true →
  name <$> getFileTree localeCompare (Dir true files) prefix
  ≡ₚ filter (λ file, skipped file = false) files.*1.
Proof.
  intros Hend. rewrite getFileTree_unfold, sort_perm. by rewrite loop_names.
Qed.

End TreeFacts.

(** ** More on the change watcher and the file route *)
Section RootFacts.
Import Js Path Names Watch.

Lemma strip_common_app rs ls : strip_common rs (rs ++ ls) = ([], ls).
Proof.
  induction rs as [|r rs IH]; [by destruct ls|].
  cbn [app strip_common]. by rewrite bool_decide_eq_true_2.
Qed.

Lemma proper_slash_free segs :
  Forall (λ seg, proper seg = true) segs → Forall (λ seg, slash ∉ seg) segs.
Proof.
  intros Hsegs. eapply Forall_impl; [done|]. intros seg Hseg.
  by apply proper_inv in Hseg as (_ & ? & _).
Qed.

Lemma isAbsolute_slash p : isAbsolute ("/" +:+ p) = true.
Proof.
  unfold isAbsolute, startsWith.
  change ("/" +:+ p) with (String "/" p). cbn -[ascii_dec].
  destruct (ascii_dec "/" "/"); [by destruct p|done].
Qed.

(** An absolute path made of names resolves to those names. *)
Lemma resolve_names cwd segs :
  Forall (λ seg, proper seg = true) segs → segs ≠ [] →
  resolve_segments cwd ("/" +:+ path_of segs) = segs.
Proof.
  intros Hsegs Hsome. unfold resolve_segments.
  rewrite isAbsolute_slash. unfold path_of. rewrite chars_app, chars_str.
  change (split (chars "/" ++ join_segments segs))
    with ([] :: split (join_segments segs)).
  rewrite split_join by (done || by apply proper_slash_free).
  cbn [normalize_segments]. rewrite bool_decide_eq_true_2 by done. cbn [orb].
  by apply normalize_segments_all.
Qed.

(** X12.  For a file below the watched directory, both given by absolute
    paths made of names, the [relativePath] of the [fileChange] object is
    the path of the file from the watched directory: the names below it,
    with no leading separator and no [..].  The object has the text of the
    file as [content], [null] for an [unlink] and when the file cannot be
    read, and it is followed by the snapshot taken then. *)
Theorem change_carries_the_path_below_the_root
    localeCompare rs ls h ev :
  Forall (λ seg, proper seg = true) rs → rs ≠ [] →
  Forall (λ seg, proper seg = true) ls → ls ≠ [] →
  let watchDir := "/" +:+ path_of rs in
  let filePath := watchDir +:+ "/" +:+ path_of ls in
  Watch.handleFileChange localeCompare watchDir h ev filePath
  = [Watch.FileChange
       {| Watch.event := ev;
          Watch.path := filePath;
          Watch.relativePath := path_of ls;
          Watch.content :=
            if bool_decide (ev = Watch.unlink) then None
            else Watch.texts h !! filePath |};
     Watch.FileTree
       (Snapshot.getFileTree localeCompare (Watch.root h) "")].
Proof.
  intros Hrs Hrsome Hls Hlsome watchDir filePath.
  assert (filePath = "/" +:+ path_of (rs ++ ls)) as Hfile.
  { subst filePath watchDir. unfold path_of. rewrite join_app by done.
    rewrite <- (str_chars (_ +:+ _)), <- (str_chars ("/" +:+ str _)).
    f_equal. rewrite !chars_app, !chars_str. by rewrite <- app_assoc. }
  unfold Watch.handleFileChange, relative.
  rewrite Hfile at 2. subst watchDir.
  rewrite !resolve_names;
    [|by apply Forall_app|by destruct rs|done|done].
  rewrite strip_common_app. cbn [List.map app]. fold (path_of ls).
  unfold Watch.readFileIfExists. by destruct ev.
Qed.

(** X13.  The file route does not keep a request inside the watched
    directory: a request for [../name], for a name that passes the two
    tests, reads the file of that name next to the watched directory and
    sends its text. *)
Theorem file_route_follows_dot_dot rs d name files content :
  Forall (λ seg, proper seg = true) rs →
  proper d = true →
  proper_name name = true →
  ReadFile.hidden name = false →
  (toLowerCase (extname name) = ""
   ∨ toLowerCase (extname name) ∈ ReadFile.allowedExtensions) →
  files !! ("/" +:+ path_of (rs ++ [chars name])) = Some (Some content) →
  ReadFile.getFile ("/" +:+ path_of (rs ++ [d])) files ("../" +:+ name)
  = ([ReadFile.ExistsSync ("/" +:+ path_of (rs ++ [chars name]));
      ReadFile.ReadFileSync ("/" +:+ path_of (rs ++ [chars name]))],
     ReadFile.Content content (toLowerCase (extname name)) name
       ("../" +:+ name)).
Proof.
  intros Hrs Hd Hname Hshown Hext Hfile.
  pose proof (proper_inv _ Hname) as (Hsome & Hfree & _).
  assert (basename ("../" +:+ name) = name) as Hbase.
  { apply (basename_last_component ".." name); [|done].
    intros ->. by apply Hsome. }
  assert (∀ seg, rs ++ [seg] ≠ []) as Hne
    by (by intros seg [_ [=]]%app_eq_nil).
  assert (join ["/" +:+ path_of (rs ++ [d]); "../" +:+ name]
          = "/" +:+ path_of (rs ++ [chars name])) as Hjoin.
  { unfold join. cbn [List.filter].
    rewrite !bool_decide_eq_false_2 by done. cbn [negb String.concat].
    assert (("/" +:+ path_of (rs ++ [d])) +:+ "/" +:+ "../" +:+ name
            = "/" +:+ path_of ((rs ++ [d]) ++ [[dot; dot]; chars name])) as ->.
    { unfold path_of.
      rewrite (join_app (rs ++ [d]) [[dot; dot]; chars name])
        by (done || apply Hne).
      rewrite <- (str_chars (_ +:+ _)), <- (str_chars ("/" +:+ str _)).
      f_equal. rewrite !chars_app, !chars_str.
      by rewrite <- !app_assoc. }
    assert (Forall (λ seg, proper seg = true) (rs ++ [d])) as Hdir.
    { apply Forall_app. split; [done|]. by constructor. }
    apply normalize_absolute.
    - apply Forall_app. split; [by apply proper_slash_free|].
      repeat constructor; [|done].
      intros Hin. repeat (apply elem_of_cons in Hin as [Hin|Hin]; [by inversion Hin|]).
      by apply elem_of_nil in Hin.
    - by intros [_ [=]]%app_eq_nil.
    - destruct (join_last [chars name]) as (l & c & Heq & Hc);
        [by repeat constructor|done|].
      rewrite (app_assoc _ [[dot; dot]] [chars name]).
      rewrite join_app by (done || by intros [_ [=]]%app_eq_nil).
      exists (join_segments ((rs ++ [d]) ++ [[dot; dot]]) ++ slash :: l), c.
      split; [|done]. by rewrite Heq, <- (app_assoc _ (slash :: l) [c]).
    - rewrite normalize_segments_names by done.
      rewrite rev_app_distr. cbn [rev app normalize_segments].
      apply proper_inv in Hd as (? & _ & ? & ?).
      pose proof (proper_inv _ Hname) as (? & _ & ? & ?).
      rewrite !bool_decide_eq_false_2 by done. cbn [orb].
      rewrite bool_decide_eq_true_2 by done.
      rewrite !bool_decide_eq_false_2 by done. cbn [orb].
      cbn [rev]. by rewrite app_nil_r, rev_involutive.
    - destruct (join_head (rs ++ [chars name])) as (c & l & -> & _);
        [|apply Hne|done].
      apply Forall_app. split; [done|]. by constructor. }
  unfold ReadFile.getFile. rewrite Hbase, Hshown, Hjoin, Hfile.
  destruct Hext as [->| Hin]; [done|].
  rewrite (bool_decide_eq_true_2 _ Hin). by rewrite andb_false_r.
Qed.

(** X14.  What the file route sends as the text of a file is what the disk
    holds at the requested path joined to the watched directory, read after
    one test of existence; the name of the file is not a hidden one, and its
    extension is empty or one of the twelve that are allowed.  The reply
    names the file by the path that was requested. *)
Theorem file_route_sends_what_the_disk_holds
    watchDir files requestedPath calls content extension filename path :
  ReadFile.getFile watchDir files requestedPath
  = (calls, ReadFile.Content content extension filename path) →
  let filePath := join [watchDir; requestedPath] in
  files !! filePath = Some (Some content)
  ∧ calls = [ReadFile.ExistsSync filePath; ReadFile.ReadFileSync filePath]
  ∧ filename = basename requestedPath
  ∧ ReadFile.hidden filename = false
  ∧ extension = toLowerCase (extname filename)
  ∧ (extension = "" ∨ extension ∈ ReadFile.allowedExtensions)
  ∧ path = requestedPath.
Proof.
  unfold ReadFile.getFile.
  destruct (ReadFile.hidden (basename requestedPath)) eqn:Hshown; [done|].
  destruct (negb _ && negb _) eqn:Hext; [done|].
  destruct (files !! _) as [[text|]|] eqn:Hfile; [|done..].
  intros [= <- <- <- <- <-]. repeat split; try done.
  apply andb_false_iff in Hext as [Hext|Hext]; apply negb_false_iff in Hext.
  - left. by apply bool_decide_eq_true in Hext.
  - right. by apply bool_decide_eq_true in Hext.
Qed.

End RootFacts.

(** ** The format route *)
Section FormatFacts.
Import Exec Format.

Variable formatJavaScript : string → string.
Variable formatJSON : string → option string.
Variable formatHTML : string → string.
Variable formatCSS : string → string.


(** X16.  Whenever the route answers anything else, or throws, the host is
    as it was: a file is written only on the way to the answer that it was
    formatted, and a write that was tried and is not followed by that answer
    is one the host refused.  The file is read before the extension is
    looked at, so a file that cannot be read is answered 500 with the
    message of the host also when its extension is not supported. *)
Theorem format_failure_leaves_the_file watchDir filepath extension h :
  let '(h', calls, o) :=
    formatFile formatJavaScript formatJSON formatHTML formatCSS
      watchDir filepath extension h in
  ((∀ message, o ≠ Sent (Formatted message)) →
   h' = h
   ∧ ∀ p data, WriteFileSync p data ∈ calls → p ∈ readonly h)
  ∧ (∀ p, filepath = Str p → p ≠ "" → truthy extension = true →
     texts h !! Path.join [watchDir; p] = None →
     o = Sent (Failed 500 (message h (Path.join [watchDir; p])))).
Proof.
  unfold formatFile.
  destruct (negb (truthy filepath) || negb (truthy extension)) eqn:Hmissing.
  { split; [split; [done|by intros ?? ?%elem_of_nil]|].
    intros p -> Hp Hext _. cbn in Hmissing.
    rewrite Hext, bool_decide_eq_false_2 in Hmissing by done. done. }
  destruct filepath as [| | | |p|];
    try (split; [split; [done|by intros ?? ?%elem_of_nil]|done]).
  destruct (texts h !! Path.join [watchDir; p]) as [content|] eqn:Hread.
  2:{ split; [|by intros ? [= <-]].
      split; [done|]. by intros ?? [=]%list_elem_of_singleton. }
  destruct (formatted _ _ _ _ extension content) as [[text|]|].
  - case_bool_decide as Hwrite.
    + split; [|intros ? [= <-]; congruence]. split; [done|].
      intros ?? [[=]|[= -> ->]%list_elem_of_singleton]%elem_of_cons. done.
    + split; [|intros ? [= <-]; congruence]. intros Hnot.
      by destruct (Hnot "File formatted successfully").
  - split; [|intros ? [= <-]; congruence]. split; [done|].
    by intros ?? [=]%list_elem_of_singleton.
  - split; [|intros ? [= <-]; congruence]. split; [done|].
    by intros ?? [=]%list_elem_of_singleton.
Qed.

End FormatFacts.

(** ** The artifact helper *)
Section ArtifactFacts.
Import Js Exec Artifacts.

Variable inherited_text : string → string.





#[local] Instance newer_first_trans : Transitive newer_first.
Proof. unfold newer_first. intros a b c. lia. Qed.

#[local] Instance newer_first_total : Total newer_first.
Proof. unfold newer_first. intros a b. lia. Qed.

(** X18.  When [listArtifacts] returns, the artifacts are in the order of
    the times they were modified, the newest first. *)
Theorem artifacts_are_listed_newest_first cwd baseDir disk l i j a b :
  listArtifacts cwd baseDir disk = Some l →
  (i < j)%nat → l !! i = Some a → l !! j = Some b →
  modified b ≤ modified a.
Proof.
  unfold listArtifacts. intros Hlist Hij Ha Hb.
  destruct (scan_all cwd baseDir disk (scanned baseDir)) as [all|]; [|done].
  injection Hlist as <-.
  assert (newer_first a b) as Hab; [|unfold newer_first in Hab; lia].
  eapply StronglySorted_lookup; [|done..].
  apply StronglySorted_merge_sort; apply _.
Qed.

Lemma elem_of_scan cwd baseDir dir category listing l a :
  scan cwd baseDir dir category listing = Some l →
  a ∈ l
  ↔ ∃ file mtime sz,
      (file, Regular mtime sz) ∈ listing
      ∧ is_artifact file = true
      ∧ a = found cwd baseDir dir category file mtime sz.
Proof.
  revert l. induction listing as [|[file st] listing IH]; intros l.
  { intros [= <-]. split; [by intros ?%elem_of_nil|].
    by intros (? & ? & ? & ?%elem_of_nil & _). }
  cbn [scan]. destruct st as [mtime sz| |]; [| |done].
  - destruct (scan cwd baseDir dir category listing) as [rest|]; [|done].
    cbn. intros [= <-]. specialize (IH rest eq_refl).
    destruct (is_artifact file) eqn:Hfile.
    + rewrite elem_of_cons, IH. split.
      * intros [->|(f & m & s & ? & ?)].
        -- exists file, mtime, sz. split; [by left|done].
        -- exists f, m, s. split; [by right|done].
      * intros (f & m & s & [[= -> -> ->]|?]%elem_of_cons & ? & ->);
          [by left|right; eauto 10].
    + rewrite IH. split.
      * intros (f & m & s & ? & ?). exists f, m, s. split; [by right|done].
      * intros (f & m & s & [[= -> -> ->]|?]%elem_of_cons & ? & ->);
          [congruence|eauto 10].
  - intros Hscan. rewrite (IH l Hscan). split.
    + intros (f & m & s & ? & ?). exists f, m, s. split; [by right|done].
    + intros (f & m & s & [[=]|?]%elem_of_cons & ? & ->). eauto 10.
Qed.

Lemma elem_of_scan_all cwd baseDir disk dirs l a :
  scan_all cwd baseDir disk dirs = Some l →
  a ∈ l
  ↔ ∃ dir category listing file mtime sz,
      (dir, category) ∈ dirs
      ∧ disk !! dir = Some (Some listing)
      ∧ (file, Regular mtime sz) ∈ listing
      ∧ is_artifact file = true
      ∧ a = found cwd baseDir dir category file mtime sz.
Proof.
  revert l. induction dirs as [|[dir category] dirs IH]; intros l.
  { intros [= <-]. split; [by intros ?%elem_of_nil|].
    by intros (? & ? & ? & ? & ? & ? & ?%elem_of_nil & _). }
  cbn [scan_all].
  destruct (scan_all cwd baseDir disk dirs) as [rest|];
    [|by destruct (match disk !! dir with Some _ => _ | None => _ end)].
  specialize (IH rest eq_refl).
  destruct (disk !! dir) as [[listing|]|] eqn:Hdir; [| done |].
  - destruct (scan cwd baseDir dir category listing) as [pushed|] eqn:Hscan;
      [|done].
    cbn. intros [= <-]. rewrite elem_of_app, IH.
    rewrite (elem_of_scan _ _ _ _ _ _ a Hscan). split.
    + intros [(f & m & s & ? & ? & ?)|(d & c & li & f & m & s & ? & ?)].
      * exists dir, category, listing, f, m, s. split; [by left|done].
      * exists d, c, li, f, m, s. split; [by right|done].
    + intros (d & c & li & f & m & s & [[= -> ->]|?]%elem_of_cons
              & Hd & ? & ? & ->).
      * left. rewrite Hdir in Hd. injection Hd as <-. eauto 10.
      * right. eauto 15.
  - cbn. intros [= <-]. rewrite IH. split.
    + intros (d & c & li & f & m & s & ? & ?).
      exists d, c, li, f, m, s. split; [by right|done].
    + intros (d & c & li & f & m & s & [[= -> ->]|?]%elem_of_cons
              & Hd & ? & ? & ->); [congruence|eauto 15].
Qed.

(** X19.  When [listArtifacts] returns, it lists exactly the regular files
    of the six artifact directories whose name begins with one of the five
    prefixes, each with the category of the directory it is in ([general] for
    the artifact directory itself) and with the time and the size the host
    gives; what is in directories below those is not listed. *)
Theorem artifacts_listed_are_the_prefixed_files cwd baseDir disk l a :
  listArtifacts cwd baseDir disk = Some l →
  a ∈ l
  ↔ ∃ dir category listing file mtime sz,
      (dir, category) ∈ scanned baseDir
      ∧ disk !! dir = Some (Some listing)
      ∧ (file, Regular mtime sz) ∈ listing
      ∧ is_artifact file = true
      ∧ a = found cwd baseDir dir category file mtime sz.
Proof.
  unfold listArtifacts. intros Hlist.
  destruct (scan_all cwd baseDir disk (scanned baseDir)) as [all|] eqn:Hall;
    [|done].
  injection Hlist as <-. rewrite merge_sort_Permutation.
  by apply elem_of_scan_all.
Qed.

Lemma scan_throws cwd baseDir dir category listing :
  scan cwd baseDir dir category listing = None
  ↔ ∃ file, (file, Missing) ∈ listing.
Proof.
  induction listing as [|[file st] listing IH]; cbn [scan].
  { split; [done|]. by intros [? ?%elem_of_nil]. }
  destruct st as [mtime sz| |].
  - destruct (scan cwd baseDir dir category listing) as [rest|]; cbn.
    + split; [done|]. intros [f [[=]|Hin]%elem_of_cons].
      assert (Some rest = None) as [=]. apply IH. eauto.
    + split; [|done]. intros _. destruct (proj1 IH eq_refl) as [f ?].
      exists f. by right.
  - rewrite IH. split.
    + intros [f ?]. exists f. by right.
    + intros [f [[=]|?]%elem_of_cons]. by exists f.
  - split; [|done]. intros _. exists file. by left.
Qed.

(** X20.  [listArtifacts] has no handler of its own: it throws exactly when
    one of the six directories is there and cannot be listed, or has an
    entry, artifact or not, that [statSync] throws on. *)
Theorem one_bad_entry_makes_the_listing_throw cwd baseDir disk :
  listArtifacts cwd baseDir disk = None
  ↔ ∃ dir category,
      (dir, category) ∈ scanned baseDir
      ∧ (disk !! dir = Some None
         ∨ ∃ listing file,
             disk !! dir = Some (Some listing) ∧ (file, Missing) ∈ listing).
Proof.
  unfold listArtifacts. rewrite fmap_None.
  generalize (scanned baseDir). intros dirs.
  induction dirs as [|[dir category] dirs IH]; cbn [scan_all].
  { split; [done|]. by intros (? & ? & ?%elem_of_nil & _). }
  destruct (disk !! dir) as [[listing|]|] eqn:Hdir.
  - destruct (scan cwd baseDir dir category listing) as [pushed|] eqn:Hscan;
      cbn.
    + destruct (scan_all cwd baseDir disk dirs) as [rest|]; cbn.
      * split; [done|].
        intros (d & c & [[= -> ->]|Hin]%elem_of_cons & Hbad).
        -- rewrite Hdir in Hbad.
           destruct Hbad as [[=]|(li & f & [= <-] & Hf)].
           assert (scan cwd baseDir dir category listing = None) as Hnone
             by (apply scan_throws; eauto).
           congruence.
        -- assert (Some rest = None) as [=]. apply IH. eauto.
      * split; [|done]. intros _.
        destruct (proj1 IH eq_refl) as (d & c & ? & ?).
        exists d, c. split; [by right|done].
    + split; [|done]. intros _. apply scan_throws in Hscan as [f Hf].
      exists dir, category. split; [by left|]. right. eauto.
  - split; [|done]. intros _. exists dir, category. split; [by left|by left].
  - cbn. destruct (scan_all cwd baseDir disk dirs) as [rest|]; cbn.
    + split; [done|].
      intros (d & c & [[= -> ->]|Hin]%elem_of_cons & Hbad).
      * rewrite Hdir in Hbad. by destruct Hbad as [[=]|(? & ? & [=] & _)].
      * assert (Some rest = None) as [=]. apply IH. eauto.
    + split; [|done]. intros _.
      destruct (proj1 IH eq_refl) as (d & c & ? & ?).
      exists d, c. split; [by right|done].
Qed.

End ArtifactFacts.

(** ** The added properties on examples *)

Lemma rate_limit_holds_in_every_window_witness :
  (length (filter (λ t, (61000 - t < 60000)%Z)
             ([0; 1000; 2000; 3000; 4000] ++ [61000])%Z) ≤ 5)%nat.
Proof.
  pose (req := {| Exec.ip := "10.0.0.7"; Exec.remoteAddress := "";
                  Exec.code := Exec.Str "print(1)";
                  Exec.filename := Exec.Str "demo" |}).
  apply (rate_limit_holds_in_every_window "/srv/app"
           [(req, 0, 0); (req, 1000, 1000); (req, 2000, 2000);
            (req, 3000, 3000); (req, 4000, 4000); (req, 59000, 59000);
            (req, 61000, 61000)]
           "10.0.0.7" [0; 1000; 2000; 3000; 4000] 61000 []).
  - cbn. repeat (constructor; [|repeat (constructor; [lia|]); constructor]).
    constructor.
  - by vm_compute.
Defined.

Lemma other_clients_leave_the_list_alone_witness :
  let other := {| Exec.ip := "10.0.0.8"; Exec.remoteAddress := "";
                  Exec.code := Exec.Str "print(2)";
                  Exec.filename := Exec.Undefined |} in
  let w := {| Exec.pythonExecutionCount := {["10.0.0.7" := [500]]};
              Exec.disk := ∅; Exec.refused := ∅ |} in
  Exec.window
    (Exec.serve "/srv/app" [(other, 1000, 1000); (other, 2000, 2000)] w).1
    "10.0.0.7"
  = [500].
Proof.
  intros other w.
  rewrite (other_clients_leave_the_list_alone "/srv/app" _ "10.0.0.7" w).
  - by vm_compute.
  - repeat constructor; by vm_compute.
Defined.

Lemma old_entries_are_forgotten_witness :
  let req := {| Exec.ip := "10.0.0.7"; Exec.remoteAddress := "";
                Exec.code := Exec.Str "print(1)";
                Exec.filename := Exec.Undefined |} in
  let w := {| Exec.pythonExecutionCount :=
                {["10.0.0.7" := [0; 1000; 2000; 3000; 4000]]};
              Exec.disk := ∅; Exec.refused := ∅ |} in
  let '(w', log, o) := Exec.executePython "/srv/app" req 70000 70000 w in
  o ≠ Exec.Replied Exec.too_many ∧ Exec.window w' (Exec.clientIP req) = [70000].
Proof.
  intros req w.
  apply (old_entries_are_forgotten "/srv/app" req 70000 70000 w).
  vm_compute. repeat (constructor; [done|]). constructor.
Defined.

Lemma invalid_code_is_refused_untouched_witness :
  let req := {| Exec.ip := "10.0.0.7"; Exec.remoteAddress := "";
                Exec.code := Exec.Number 5;
                Exec.filename := Exec.Str "demo" |} in
  let '(w', log, o) := Exec.executePython "/srv/app" req 1000 1000 Exec.fresh in
  Exec.refused_as o = Some Exec.InvalidInput ∧ log = [] ∧ Exec.disk w' = ∅.
Proof.
  intros req.
  pose proof (invalid_code_is_refused_untouched "/srv/app" req 1000 1000
                Exec.fresh) as Hthm.
  destruct (Exec.executePython "/srv/app" req 1000 1000 Exec.fresh)
    as [[w' log] o].
  destruct Hthm as [Hiff Hlog].
  assert (Exec.refused_as o = Some Exec.InvalidInput) as Hrefused.
  { apply Hiff. split; [vm_compute; lia|]. by intros (text & [=] & _). }
  split; [done|]. by apply Hlog.
Defined.

Lemma spawn_follows_the_staged_code_witness :
  let req := {| Exec.ip := "10.0.0.7"; Exec.remoteAddress := "";
                Exec.code := Exec.Str "print(1)";
                Exec.filename := Exec.Str "demo" |} in
  let '(w', log, o) := Exec.executePython "/srv/app" req 1000 1000 Exec.fresh in
  ∃ c, o = Exec.Started c
       ∧ Exec.tempFile c = "/srv/app/temp/demo_1000.py"
       ∧ Exec.tempFile c ∈ Exec.disk w'.
Proof.
  intros req.
  pose proof (spawn_follows_the_staged_code "/srv/app" req 1000 1000
                Exec.fresh) as Hthm.
  destruct (Exec.executePython "/srv/app" req 1000 1000 Exec.fresh)
    as [[w' log] o] eqn:Hrun.
  vm_compute in Hrun. injection Hrun as <- <- <-.
  destruct Hthm as (_ & _ & _ & Hdisk & _).
  eexists. split; [reflexivity|]. split; [reflexivity|]. exact Hdisk.
Defined.

Lemma refused_scratch_file_is_answered_500_witness :
  let req := {| Exec.ip := "10.0.0.7"; Exec.remoteAddress := "";
                Exec.code := Exec.Str "print(1)";
                Exec.filename := Exec.Str "demo" |} in
  let w := {| Exec.pythonExecutionCount := ∅;
              Exec.disk := ∅;
              Exec.refused := {["/srv/app/temp/demo_1000.py"]} |} in
  let '(w', log, o) := Exec.executePython "/srv/app" req 1000 1000 w in
  o = Exec.Replied Exec.no_temp_file
  ∧ Exec.refused_as o = Some Exec.StagingError
  ∧ (∀ command args, Exec.Spawn command args ∉ log)
  ∧ Exec.window w' (Exec.clientIP req)
    = Exec.recent 1000 (Exec.window w (Exec.clientIP req)) ++ [1000].
Proof.
  intros req w.
  apply (refused_scratch_file_is_answered_500 "/srv/app" req 1000 1000 w).
  - reflexivity.
  - vm_compute. lia.
  - apply (bool_decide_unpack _). by vm_compute.
  - apply (bool_decide_unpack _). by vm_compute.
Defined.

Lemma close_reply_carries_both_streams_witness :
  let c := {| Exec.tempFile := "/srv/app/temp/demo_1000.py";
              Exec.captured_output := "";
              Exec.captured_error := "" |} in
  let chunks := [Exec.StdoutData "a"; Exec.StderrData "warn";
                 Exec.StdoutData "b"] in
  let reply :=
    (Runs.deliver (chunks ++ [Exec.Close (Some 0)]) c Exec.fresh).2 in
  reply
  = Some {| Exec.status := 200;
            Exec.success := bool_decide (Some 0 = Some 0);
            Exec.error := Exec.captured_error c +:+ Runs.stderr_of chunks;
            Exec.output :=
              Some (Exec.captured_output c +:+ Runs.stdout_of chunks);
            Exec.exitCode := Some (Some 0) |}
  ∧ (Exec.failureKind <$> reply)
    = Some (if bool_decide (Some 0 = Some 0) then None
            else Some Exec.RuntimeError).
Proof.
  intros c chunks.
  apply (close_reply_carries_both_streams chunks (Some 0) c Exec.fresh).
  repeat constructor.
Defined.

Lemma error_reply_carries_the_message_witness :
  let c := {| Exec.tempFile := "/srv/app/temp/demo_1000.py";
              Exec.captured_output := "";
              Exec.captured_error := "" |} in
  let reply :=
    (Runs.deliver [Exec.Error "ENOENT" "spawn python3 ENOENT"] c
       Exec.fresh).2 in
  reply
  = Some {| Exec.status := 500;
            Exec.success := false;
            Exec.error :=
              "Failed to execute Python script: " +:+ "spawn python3 ENOENT";
            Exec.output := Some (Exec.captured_output c +:+ Runs.stdout_of []);
            Exec.exitCode := Some (Some (-1)) |}
  ∧ (Exec.failureKind <$> reply) = Some (Some Exec.SpawnError).
Proof.
  intros c.
  apply (error_reply_carries_the_message [] "ENOENT" "spawn python3 ENOENT"
           c Exec.fresh).
  - constructor.
  - done.
Defined.

Lemma snapshot_paths_follow_the_names_witness :
  Forall (Names.chained "")
    (Snapshot.getFileTree Snapshot.codeUnitCompare
       (Snapshot.Dir true
          [("css", Snapshot.Dir true [("main.css", Snapshot.File 6)]);
           ("index.html", Snapshot.File 120)]) "").
Proof.
  apply snapshot_paths_follow_the_names. reflexivity.
Defined.

Lemma snapshot_items_come_from_entries_witness :
  let files := [("index.html", Snapshot.File 120);
                (".env", Snapshot.File 30)] in
  let it := Snapshot.FileEntry "index.html" "index.html" ".html" 120 in
  ∃ file stat,
    (file, stat) ∈ files
    ∧ Snapshot.skipped file = false
    ∧ match stat with
      | Snapshot.File size =>
          it = Snapshot.FileEntry file (Path.join [""; file])
                 (Js.toLowerCase (Path.extname file)) size
      | Snapshot.Dir _ _ =>
          it = Snapshot.Directory file (Path.join [""; file])
                 (Snapshot.getFileTree Snapshot.codeUnitCompare stat
                    (Path.join [""; file]))
      | Snapshot.NoStat => False
      end.
Proof.
  intros files it.
  apply (snapshot_items_come_from_entries Snapshot.codeUnitCompare files "" it).
  vm_compute. left.
Defined.

Lemma snapshot_names_are_the_kept_names_witness :
  let files := [("index.html", Snapshot.File 120);
                (".env", Snapshot.File 30);
                ("css", Snapshot.Dir true [])] in
  Snapshot.name
    <$> Snapshot.getFileTree Snapshot.codeUnitCompare
          (Snapshot.Dir true files) ""
  ≡ₚ filter (λ file, Snapshot.skipped file = false) files.*1.
Proof.
  intros files.
  apply (snapshot_names_are_the_kept_names Snapshot.codeUnitCompare files "").
  reflexivity.
Defined.

Lemma change_carries_the_path_below_the_root_witness :
  let rs := [Js.chars "home"; Js.chars "ana"; Js.chars "site"] in
  let ls := [Js.chars "css"; Js.chars "main.css"] in
  let h := {| Watch.cwd := "/";
              Watch.texts := ∅;
              Watch.root := Snapshot.Dir true [] |} in
  let watchDir := "/" +:+ Names.path_of rs in
  let filePath := watchDir +:+ "/" +:+ Names.path_of ls in
  Names.path_of ls = "css/main.css"
  ∧ filePath = "/home/ana/site/css/main.css"
  ∧ Watch.handleFileChange Snapshot.codeUnitCompare watchDir h Watch.add
      filePath
    = [Watch.FileChange
         {| Watch.event := Watch.add;
            Watch.path := filePath;
            Watch.relativePath := Names.path_of ls;
            Watch.content := Watch.texts h !! filePath |};
       Watch.FileTree
         (Snapshot.getFileTree Snapshot.codeUnitCompare (Watch.root h) "")].
Proof.
  intros rs ls h watchDir filePath.
  split; [reflexivity|]. split; [reflexivity|].
  apply (change_carries_the_path_below_the_root Snapshot.codeUnitCompare
           rs ls h Watch.add).
  - repeat constructor.
  - done.
  - repeat constructor.
  - done.
Defined.

Lemma file_route_follows_dot_dot_witness :
  let files : gmap string (option string) :=
    {["/home/ana/notes.txt" := Some "not for the site"]} in
  ReadFile.getFile "/home/ana/site" files "../notes.txt"
  = ([ReadFile.ExistsSync "/home/ana/notes.txt";
      ReadFile.ReadFileSync "/home/ana/notes.txt"],
     ReadFile.Content "not for the site" ".txt" "notes.txt" "../notes.txt").
Proof.
  intros files.
  apply (file_route_follows_dot_dot
           [Js.chars "home"; Js.chars "ana"] (Js.chars "site") "notes.txt"
           files "not for the site").
  - repeat constructor.
  - reflexivity.
  - reflexivity.
  - reflexivity.
  - right. apply (bool_decide_unpack _). by vm_compute.
  - by vm_compute.
Defined.

Lemma file_route_sends_what_the_disk_holds_witness :
  let files : gmap string (option string) :=
    {["/home/ana/site/index.html" := Some "<p>hi</p>"]} in
  let filePath := Path.join ["/home/ana/site"; "index.html"] in
  files !! filePath = Some (Some "<p>hi</p>")
  ∧ [ReadFile.ExistsSync "/home/ana/site/index.html";
     ReadFile.ReadFileSync "/home/ana/site/index.html"]
    = [ReadFile.ExistsSync filePath; ReadFile.ReadFileSync filePath]
  ∧ "index.html" = Path.basename "index.html"
  ∧ ReadFile.hidden "index.html" = false
  ∧ ".html" = Js.toLowerCase (Path.extname "index.html")
  ∧ (".html" = "" ∨ ".html" ∈ ReadFile.allowedExtensions)
  ∧ "index.html" = "index.html".
Proof.
  intros files.
  apply (file_route_sends_what_the_disk_holds "/home/ana/site" files
           "index.html"
           [ReadFile.ExistsSync "/home/ana/site/index.html";
            ReadFile.ReadFileSync "/home/ana/site/index.html"]
           "<p>hi</p>" ".html" "index.html" "index.html").
  by vm_compute.
Defined.


Lemma format_failure_leaves_the_file_witness :
  let formatJavaScript := λ s : string, s +:+ ";" in
  let formatJSON :=
    λ s : string, if bool_decide (s = "") then None else Some s in
  let formatHTML := λ s : string, s in
  let formatCSS := λ s : string, s in
  let h := {| Format.texts := ∅;
              Format.readonly := ∅;
              Format.message := λ p, "ENOENT: " +:+ p |} in
  let '(h', calls, o) :=
    Format.formatFile formatJavaScript formatJSON formatHTML formatCSS
      "/home/ana/site" (Exec.Str "notes.txt") (Exec.Str ".txt") h in
  o = Format.Sent
        (Format.Failed 500
           (Format.message h (Path.join ["/home/ana/site"; "notes.txt"])))
  ∧ h' = h.
Proof.
  intros formatJavaScript formatJSON formatHTML formatCSS h.
  pose proof (format_failure_leaves_the_file
                formatJavaScript formatJSON formatHTML formatCSS
                "/home/ana/site" (Exec.Str "notes.txt") (Exec.Str ".txt") h)
    as Hthm.
  destruct (Format.formatFile _ _ _ _ _ _ _ h) as [[h' calls] o].
  destruct Hthm as [Hsame Hread].
  assert (o = Format.Sent
                (Format.Failed 500
                   (Format.message h
                      (Path.join ["/home/ana/site"; "notes.txt"])))) as Ho.
  { apply Hread; [done|done|done|by vm_compute]. }
  split; [done|]. apply Hsame. intros message. by rewrite Ho.
Defined.

Lemma artifacts_are_listed_newest_first_witness :
  let older :=
    Artifacts.found "/" "/proj" "/proj/artifacts/pages" "pages"
      "artifact-a.html" 100 10 in
  let newer :=
    Artifacts.found "/" "/proj" "/proj/artifacts/pages" "pages"
      "artifact-b.html" 200 20 in
  Artifacts.modified older ≤ Artifacts.modified newer.
Proof.
  intros older newer.
  apply (artifacts_are_listed_newest_first "/" "/proj"
           {["/proj/artifacts/pages"
             := Some [("artifact-a.html", Artifacts.Regular 100 10);
                      ("artifact-b.html", Artifacts.Regular 200 20)]]}
           [newer; older] 0%nat 1%nat newer older).
  - by vm_compute.
  - lia.
  - reflexivity.
  - reflexivity.
Defined.

Lemma artifacts_listed_are_the_prefixed_files_witness :
  let disk : gmap string (option (list (string * Artifacts.stat))) :=
    {["/proj/artifacts/scripts"
      := Some [("script-run.py", Artifacts.Regular 100 10);
               ("notes.txt", Artifacts.Regular 200 20);
               ("script-old", Artifacts.Other)]]} in
  let a :=
    Artifacts.found "/" "/proj" "/proj/artifacts/scripts" "scripts"
      "script-run.py" 100 10 in
  Artifacts.listArtifacts "/" "/proj" disk = Some [a] ∧ a ∈ [a].
Proof.
  intros disk a.
  assert (Artifacts.listArtifacts "/" "/proj" disk = Some [a]) as Hlist
    by (by vm_compute).
  split; [done|].
  apply (artifacts_listed_are_the_prefixed_files "/" "/proj" disk [a] a Hlist).
  exists "/proj/artifacts/scripts", "scripts",
    [("script-run.py", Artifacts.Regular 100 10);
     ("notes.txt", Artifacts.Regular 200 20);
     ("script-old", Artifacts.Other)],
    "script-run.py", 100, 10.
  split; [vm_compute; do 3 right; left|].
  split; [by vm_compute|]. split; [left|]. split; reflexivity.
Defined.

Lemma one_bad_entry_makes_the_listing_throw_witness :
  let disk : gmap string (option (list (string * Artifacts.stat))) :=
    {["/proj/artifacts/data"
      := Some [("data-a.json", Artifacts.Regular 100 10);
               ("stale-link", Artifacts.Missing)]]} in
  Artifacts.listArtifacts "/" "/proj" disk = None.
Proof.
  intros disk.
  apply (one_bad_entry_makes_the_listing_throw "/" "/proj" disk).
  exists "/proj/artifacts/data", "data". split.
  - vm_compute. do 5 right. left.
  - right.
    exists [("data-a.json", Artifacts.Regular 100 10);
            ("stale-link", Artifacts.Missing)], "stale-link".
    split; [by vm_compute|]. right. left.
Defined.
